(** * repo-branch: the branch-creation pipeline of [src/index.ts]

    A shallow embedding of the command-line tool that creates one branch in
    several GitHub repositories by shelling out to the [gh] client, and the
    properties of its selection, listing, branch-creation and reporting
    steps.

    The program is asynchronous but strictly sequential: every [await] is a
    suspension point of a single chain.  It is modelled in a small monad of
    traces: a computation receives the events that happened so far and
    returns a result (a value, a thrown JavaScript error, or a process exit)
    together with the events it appended. *)

From Stdlib Require Import List String Ascii Bool ZArith Arith Lia.
From Stdlib Require Import Permutation Sorted DecimalString OrderedTypeEx.
Import ListNotations.
Local Open Scope string_scope.
Local Open Scope list_scope.

Set Implicit Arguments.

(* ===================================================================== *)
(** ** JavaScript strings *)
(* ===================================================================== *)

Module Js.

(** The line feed of template literals written with [\n]. *)
Definition nl : string := String (ascii_of_nat 10) "".

(** [String.prototype.includes]: [needle] occurs somewhere in [hay]. *)
Fixpoint includes (needle hay : string) : bool :=
  String.prefix needle hay ||
  match hay with
  | EmptyString => false
  | String _ rest => includes needle rest
  end.

(** White space removed by [String.prototype.trim], on the ASCII range:
    tab, line feed, vertical tab, form feed, carriage return and space. *)
Definition is_white_space (c : ascii) : bool :=
  match nat_of_ascii c with
  | 9 | 10 | 11 | 12 | 13 | 32 => true
  | _ => false
  end.

Fixpoint trimStart (s : string) : string :=
  match s with
  | EmptyString => EmptyString
  | String c rest => if is_white_space c then trimStart rest else s
  end.

Fixpoint trimEnd (s : string) : string :=
  match s with
  | EmptyString => EmptyString
  | String c rest =>
      match trimEnd rest with
      | EmptyString => if is_white_space c then EmptyString else String c EmptyString
      | kept => String c kept
      end
  end.

Definition trim (s : string) : string := trimEnd (trimStart s).

(** [Array.prototype.join]. *)
Fixpoint join (sep : string) (l : list string) : string :=
  match l with
  | [] => ""
  | [x] => x
  | x :: rest => x ++ sep ++ join sep rest
  end.

(** Truthiness of a string: every string but the empty one. *)
Definition truthy (s : string) : bool := negb (s =? "").

(** [a || b] on strings. *)
Definition or_else (a b : string) : string := if truthy a then a else b.

(** [Array.prototype.includes] on an array of strings. *)
Definition array_includes (l : list string) (x : string) : bool :=
  existsb (String.eqb x) l.

(** Template interpolation of a number. *)
Definition of_nat (n : nat) : string := NilEmpty.string_of_uint (Nat.to_uint n).

(** [Array.prototype.sort] with a comparator.  The language requires the
    sort to be stable; for a consistent comparator the result is then
    determined: it is the one computed here by insertion from the right,
    where an element goes before the first element it does not follow. *)
Section Sort.

Context {A : Type} (cmp : A -> A -> Z).

Fixpoint sort_insert (a : A) (l : list A) : list A :=
  match l with
  | [] => [a]
  | b :: rest =>
      if (cmp a b <=? 0)%Z then a :: b :: rest else b :: sort_insert a rest
  end.

Fixpoint sort (l : list A) : list A :=
  match l with
  | [] => []
  | a :: rest => sort_insert a (sort rest)
  end.

End Sort.

End Js.

(* ===================================================================== *)
(** ** Errors, events and the outside world *)
(* ===================================================================== *)

(** A thrown value, with the properties the program reads: [message],
    [stderr] (set on the failure of a command) and [status] (set on the
    failure of a request to the REST interface). *)
Record JsError : Type := mkError {
  message : string;
  stderr : option string;
  status : option Z
}.

(** [new Error(msg)]. *)
Definition Error (msg : string) : JsError := mkError msg None None.

(** The rejection of the promisified [child_process.exec] for a command
    that ran and exited with a non-zero status. *)
Definition command_failed (cmd err : string) : JsError :=
  mkError ("Command failed: " ++ cmd ++ Js.nl ++ err) (Some err) None.

Inductive Stream : Type := Log | Warn | Err.

Inductive Arg : Type :=
| Str (s : string)
| Obj (e : JsError).

Inductive TaskStatus : Type :=
| Completed
| Failed (msg : string).

(** Everything observable a run does, in order. *)
Inductive Event : Type :=
| Exec (cmd : string)
| Console (stream : Stream) (args : list Arg)
| Prompt (choices : list string)
| TaskState (title : string) (status : TaskStatus).

Inductive ExecOutcome : Type :=
| Succeeds (stdout : string)
| Fails (err : string).

Inductive PromptOutcome : Type :=
| Answered (checked : list bool)
| Rejected (e : JsError).

(** An entry of the listing as [gh repo list --json] prints it.
    [defaultBranchRef] is [None] when the object is null or missing, and
    [Some None] when it is there without a name. *)
Record RawRepo : Type := mkRaw {
  raw_name : string;
  defaultBranchRef : option (option string);
  nameWithOwner : string
}.

Record Repository : Type := mkRepo {
  name : string;
  defaultBranch : string;
  full_name : string
}.

(** What the program does not decide itself. *)
Record World : Type := mkWorld {
  (** [process.env.BRANCH_SYNC_GITHUB_ORG || ""] *)
  GITHUB_ORG : string;
  (** whether chalk emits colour codes *)
  colors : bool;
  (** the shell: a command run after the given events *)
  sh : list Event -> string -> ExecOutcome;
  (** [JSON.parse] on the listing *)
  JSON_parse : string -> JsError + list RawRepo;
  (** [String.prototype.localeCompare] in the host locale *)
  localeCompare : string -> string -> Z;
  (** the checkbox prompt: which choices the user ticks *)
  checkbox : list string -> PromptOutcome
}.

(* ===================================================================== *)
(** ** The monad of traces *)
(* ===================================================================== *)

Inductive Res (A : Type) : Type :=
| Val (a : A)
| Throw (e : JsError)
| Exit (code : Z).

Arguments Val {A} a.
Arguments Throw {A} e.
Arguments Exit {A} code.

Definition M (A : Type) : Type := list Event -> Res A * list Event.

Definition ret {A} (a : A) : M A := fun _ => (Val a, []).

Definition bind {A B} (m : M A) (f : A -> M B) : M B :=
  fun h =>
    match m h with
    | (Val a, e1) => let (r, e2) := f a (h ++ e1) in (r, e1 ++ e2)
    | (Throw x, e1) => (Throw x, e1)
    | (Exit c, e1) => (Exit c, e1)
    end.

Definition throw {A} (e : JsError) : M A := fun _ => (Throw e, []).

(** [try { m } catch (error) { handler error }].  A process exit is not an
    exception and is not caught. *)
Definition try_catch {A} (m : M A) (handler : JsError -> M A) : M A :=
  fun h =>
    match m h with
    | (Throw x, e1) => let (r, e2) := handler x (h ++ e1) in (r, e1 ++ e2)
    | other => other
    end.

Definition emit (ev : Event) : M unit := fun _ => (Val tt, [ev]).

Definition process_exit {A} (code : Z) : M A := fun _ => (Exit code, []).

Declare Scope js_scope.
Delimit Scope js_scope with js.
Notation "x <- m ;; k" := (bind m (fun x => k))
  (at level 61, m at next level, right associativity) : js_scope.
Notation "m ;; k" := (bind m (fun _ => k))
  (at level 61, right associativity) : js_scope.
Local Open Scope js_scope.

(** The exit status the operating system sees: a run that returns ends
    with status 0 once the event loop is empty. *)
Definition exit_code {A} (r : Res A) : Z :=
  match r with
  | Val _ => 0
  | Throw _ => 1
  | Exit c => c
  end.

(* ===================================================================== *)
(** ** The program *)
(* ===================================================================== *)

Inductive Color : Type := red | yellow | blue | cyan | green.

Definition color_code (c : Color) : string :=
  match c with
  | red => "31" | green => "32" | yellow => "33" | blue => "34" | cyan => "36"
  end.

Definition esc : string := String (ascii_of_nat 27) "[".

Section Program.

Variable w : World.

(** [chalk.red(s)] and the like: the text between the colour's opening and
    closing codes, or the bare text when colours are off. *)
Definition chalk (c : Color) (s : string) : string :=
  if colors w then esc ++ color_code c ++ "m" ++ s ++ esc ++ "39m" else s.

Definition console_log (args : list Arg) : M unit := emit (Console Log args).
Definition console_warn (args : list Arg) : M unit := emit (Console Warn args).
Definition console_error (args : list Arg) : M unit := emit (Console Err args).

(** [await exec(command)], keeping the standard output.  The command
    runs and exits with status 0, or with another status, in which case
    the promise is rejected with [command_failed]. *)
Definition exec (command : string) : M string :=
  fun h =>
    match sh w h command with
    | Succeeds out => (Val out, [Exec command])
    | Fails err => (Throw (command_failed command err), [Exec command])
    end.

Definition getCurrentUser : M string :=
  try_catch
    (stdout <- exec "gh api user --jq .login" ;;
     ret (Js.trim stdout))
    (fun _ => throw (Error "Failed to get GitHub user. Please run 'gh auth login'")).

Definition validateAndGetOwner : M string :=
  if Js.truthy (GITHUB_ORG w) then ret (GITHUB_ORG w)
  else
    try_catch
      (currentUser <- getCurrentUser ;;
       ret currentUser)
      (fun error =>
         console_error [Str (chalk red "❌ Unable to determine GitHub owner")] ;;
         console_error [Str (chalk yellow "Please either:")] ;;
         console_error [Str (chalk yellow "1. Set BRANCH_SYNC_GITHUB_ORG in your .env file")] ;;
         console_error [Str (chalk yellow "2. Run 'gh auth login' to authenticate with GitHub CLI")] ;;
         throw error).

Definition checkGitHubCLI : M bool :=
  try_catch
    (exec "gh --version" ;; ret true)
    (fun _ => ret false).

(** [repo.defaultBranchRef?.name || "main"] *)
Definition default_branch_of (r : RawRepo) : string :=
  match defaultBranchRef r with
  | Some (Some branch) => Js.or_else branch "main"
  | _ => "main"
  end.

(** The object built for one entry of the listing. *)
Definition normalize (r : RawRepo) : Repository :=
  {| name := raw_name r;
     defaultBranch := default_branch_of r;
     full_name := nameWithOwner r |}.

(** The comparator passed to [sort]. *)
Definition by_full_name (a b : Repository) : Z :=
  localeCompare w (full_name a) (full_name b).

Definition list_command (owner : string) : string :=
  "gh repo list " ++ owner ++ " --limit 1000 --json name,defaultBranchRef,nameWithOwner".

Definition parse (stdout : string) : M (list RawRepo) :=
  match JSON_parse w stdout with
  | inl e => throw e
  | inr repos => ret repos
  end.

Definition getRepositories (owner : string) : M (list Repository) :=
  try_catch
    (stdout <- exec (list_command owner) ;;
     repos <- parse stdout ;;
     ret (Js.sort by_full_name (map normalize repos)))
    (fun error =>
       console_error [Str (chalk red "Failed to fetch repositories:"); Obj error] ;;
       throw error).

Definition view_command (owner repoName : string) : string :=
  "gh repo view " ++ owner ++ "/" ++ repoName ++
  " --json defaultBranchRef --jq .defaultBranchRef.name".

Definition sha_command (owner repoName branch : string) : string :=
  "gh api repos/" ++ owner ++ "/" ++ repoName ++ "/git/refs/heads/" ++ branch ++
  " --jq .object.sha".

Definition ref_command (owner repoName branchName sha : string) : string :=
  "gh api repos/" ++ owner ++ "/" ++ repoName ++ "/git/refs -f ref=refs/heads/" ++
  branchName ++ " -f sha=" ++ sha.

(** [error.stderr && error.stderr.includes("Reference already exists")] *)
Definition reference_already_exists (error : JsError) : bool :=
  match stderr error with
  | Some text => Js.truthy text && Js.includes "Reference already exists" text
  | None => false
  end.

Definition createBranch (owner repoName branchName : string) : M unit :=
  try_catch
    (defaultBranchStdout <- exec (view_command owner repoName) ;;
     let defaultBranch := Js.or_else (Js.trim defaultBranchStdout) "main" in
     shaStdout <- exec (sha_command owner repoName defaultBranch) ;;
     let sha := Js.trim shaStdout in
     exec (ref_command owner repoName branchName sha) ;;
     ret tt)
    (fun error =>
       if reference_already_exists error
       then throw (Error "Branch already exists")
       else throw error).

(** The label of a choice of the prompt. *)
Definition choice_label (repo : Repository) : string :=
  full_name repo ++ " (" ++ defaultBranch repo ++ ")".

(** The values of the ticked choices, in the order of the choices. *)
Definition ticked {A} (checked : list bool) (values : list A) : list A :=
  map snd (filter fst (combine checked values)).

Definition selectRepositories (repos : list Repository) : M (list Repository) :=
  fun _ =>
    let choices := map choice_label repos in
    match checkbox w choices with
    | Answered checked => (Val (ticked checked repos), [Prompt choices])
    | Rejected e => (Throw e, [Prompt choices])
    end.

(** [allRepos.filter((repo) => repoNames.includes(repo.name))] *)
Definition named (repoNames : list string) (allRepos : list Repository)
  : list Repository :=
  filter (fun repo => Js.array_includes repoNames (name repo)) allRepos.

(** [repoNames.filter((name) => !allRepos.some((repo) => repo.name === name))] *)
Definition notFound (repoNames : list string) (allRepos : list Repository)
  : list string :=
  filter (fun n => negb (existsb (fun repo => name repo =? n) allRepos)) repoNames.

Definition not_found_warning (missing : list string) : string :=
  chalk yellow ("⚠️  Repositories not found: " ++ Js.join ", " missing).

(** The branch of [run] that fixes [selectedRepos].  An absent argument and
    an empty array are both the empty list. *)
Definition select (allRepos : list Repository) (repoNames : list string)
  : M (list Repository) :=
  if (0 <? List.length repoNames)%nat then
    let selectedRepos := named repoNames allRepos in
    let missing := notFound repoNames allRepos in
    (if (0 <? List.length missing)%nat
     then console_warn [Str (not_found_warning missing)]
     else ret tt) ;;
    ret selectedRepos
  else selectRepositories allRepos.

(** One task of the list given to Listr. *)
Definition task_title (repo : Repository) : string :=
  "Creating branch in " ++ chalk cyan (name repo).

Definition task (owner branchName : string) (repo : Repository) : M unit :=
  try_catch
    (createBranch owner (name repo) branchName)
    (fun error =>
       if Js.includes "already exists" (message error)
       then throw (Error (chalk yellow "Branch already exists"))
       else throw error).

(** [new Listr(tasks).run()] with the options left at their defaults, as
    the program constructs it: tasks run one after the other
    ([concurrent: false]), each ends completed or failed with the message
    of its error, and the first failure rejects the run with that error
    without starting the remaining tasks ([exitOnError: true]). *)
Fixpoint Listr_run (tasks : list (string * M unit)) : M unit :=
  match tasks with
  | [] => ret tt
  | (title, job) :: rest =>
      try_catch job
        (fun error => emit (TaskState title (Failed (message error))) ;; throw error) ;;
      emit (TaskState title Completed) ;;
      Listr_run rest
  end.

Definition tasks_of (owner branchName : string) (selectedRepos : list Repository)
  : list (string * M unit) :=
  map (fun repo => (task_title repo, task owner branchName repo)) selectedRepos.

Definition creating_banner (branchName : string) (n : nat) : string :=
  chalk blue (Js.nl ++ "🚀 Creating branch '" ++ branchName ++ "' in " ++
              Js.of_nat n ++ " repositories..." ++ Js.nl).

(** What [run] does once [selectedRepos] is known. *)
Definition process_selected (owner branchName : string)
    (selectedRepos : list Repository) : M unit :=
  if (List.length selectedRepos =? 0)%nat then
    console_log [Str (chalk yellow "No repositories selected")]
  else
    console_log [Str (creating_banner branchName (List.length selectedRepos))] ;;
    Listr_run (tasks_of owner branchName selectedRepos) ;;
    console_log [Str (chalk green (Js.nl ++ "✨ All done!"))].

(** The [try] block of [run]. *)
Definition run_body (branchName : string) (repoNames : list string) : M unit :=
  owner <- validateAndGetOwner ;;
  console_log [Str (chalk blue ("🔍 Fetching repositories for " ++ owner ++ "..."))] ;;
  allRepos <- getRepositories owner ;;
  selectedRepos <- select allRepos repoNames ;;
  process_selected owner branchName selectedRepos.

Definition run (branchName : string) (repoNames : list string) : M unit :=
  try_catch
    (run_body branchName repoNames)
    (fun error =>
       (if message error =? "Prompt was cancelled"
        then console_log [Str (chalk yellow (Js.nl ++ "Operation cancelled"))] ;;
             process_exit 0
        else ret tt) ;;
       console_error [Str (chalk red "Error:"); Obj error] ;;
       process_exit 1).

(** The wrapper at the end of the file, after the command line is parsed
    into the branch name and the repository names. *)
Definition main (branchName : string) (repositories : list string) : M unit :=
  available <- checkGitHubCLI ;;
  (if negb available
   then console_error [Str (chalk red "❌ GitHub CLI not found")] ;;
        console_error [Str (chalk yellow "Please install GitHub CLI: https://cli.github.com/")] ;;
        process_exit 1
   else ret tt) ;;
  run branchName repositories.

End Program.

(* ===================================================================== *)
(** ** The variant that talks to the REST interface *)
(* ===================================================================== *)

(** The second source file is the same tool written against the Octokit
    client instead of the [gh] command.  The two functions of it that the
    statements below are about are embedded here. *)
Module Octokit.

(** An entry of [repos.listForOrg] or [repos.listForAuthenticatedUser];
    [default_branch] is [None] when it is null or missing. *)
Record RestRepo : Type := mkRest {
  rest_name : string;
  default_branch : option string;
  rest_full_name : string
}.

(** The three requests of [createBranch], answered with data or rejected
    with an error. *)
Record Rest : Type := mkClient {
  OWNER : string;
  repos_get : string -> string -> JsError + string;
  git_getRef : string -> string -> string -> JsError + string;
  git_createRef : string -> string -> string -> string -> JsError + unit
}.

(** The object built for one entry: [repo.default_branch ?? "main"]. *)
Definition normalize (r : RestRepo) : Repository :=
  {| name := rest_name r;
     defaultBranch := match default_branch r with
                      | Some branch => branch
                      | None => "main"
                      end;
     full_name := rest_full_name r |}.

(** The result of [getRepositories] for the entries the client returns. *)
Definition getRepositories (repos : list RestRepo) : list Repository :=
  map normalize repos.

(** [error.status === 422] *)
Definition unprocessable (error : JsError) : bool :=
  match status error with
  | Some code => (code =? 422)%Z
  | None => false
  end.

(** The [catch] block of [createBranch]. *)
Definition rethrow (error : JsError) : JsError + unit :=
  if unprocessable error then inl (Error "Branch already exists") else inl error.

Definition createBranch (client : Rest) (repoName branchName : string)
  : JsError + unit :=
  match repos_get client (OWNER client) repoName with
  | inl error => rethrow error
  | inr branch =>
      match git_getRef client (OWNER client) repoName ("heads/" ++ branch) with
      | inl error => rethrow error
      | inr sha =>
          match git_createRef client (OWNER client) repoName
                  ("refs/heads/" ++ branchName) sha with
          | inl error => rethrow error
          | inr _ => inr tt
          end
      end
  end.

End Octokit.

(* ===================================================================== *)
(** ** Collation *)
(* ===================================================================== *)

(** A comparator is consistent, in the sense [Array.prototype.sort] asks
    for, when swapping its arguments flips the sign of the result and
    "not after" is transitive. *)
Record Consistent (cmp : string -> string -> Z) : Prop := {
  cmp_flip : forall a b, Z.sgn (cmp b a) = (- Z.sgn (cmp a b))%Z;
  cmp_trans : forall a b c, (cmp a b <= 0)%Z -> (cmp b c <= 0)%Z -> (cmp a c <= 0)%Z
}.

Module Collation.

(** The characters of the ASCII range in the order the default (root)
    collation of ICU gives them at the primary level: punctuation, then
    symbols, then digits, then letters without regard to case.  Characters
    outside the table (controls, the double quote, bytes above 127) get
    one weight after the letters; that is a simplification, and none of
    them can occur in the full name of a repository. *)
Definition primary_order : string :=
  " _-,;:!?.'()[]{}@*/\&#%`^+<=>|~$0123456789abcdefghijklmnopqrstuvwxyz".

Definition is_upper (c : ascii) : bool :=
  let n := nat_of_ascii c in (65 <=? n)%nat && (n <=? 90)%nat.

Definition to_lower (c : ascii) : ascii :=
  if is_upper c then ascii_of_nat (nat_of_ascii c + 32) else c.

Fixpoint position (c : ascii) (table : string) (i : nat) : nat :=
  match table with
  | EmptyString => 200
  | String d rest => if Ascii.eqb c d then i else position c rest (S i)
  end.

(** Weights start at 1, so that 0 can separate the levels of a key. *)
Definition primary_weight (c : ascii) : ascii :=
  ascii_of_nat (position (to_lower c) primary_order 1).

(** Lower case sorts before upper case at the third level. *)
Definition tertiary_weight (c : ascii) : ascii :=
  if is_upper c then ascii_of_nat 2 else ascii_of_nat 1.

Fixpoint weights (f : ascii -> ascii) (s : string) : string :=
  match s with
  | EmptyString => EmptyString
  | String c rest => String (f c) (weights f rest)
  end.

(** The sort key: all primary weights, a separator, all tertiary weights.
    Keys compare byte by byte, so that two strings are first compared
    without regard to case, and case decides only between strings that are
    otherwise the same. *)
Definition sort_key (s : string) : string :=
  weights primary_weight s ++ String (ascii_of_nat 0) (weights tertiary_weight s).

Definition of_comparison (c : comparison) : Z :=
  match c with
  | Lt => (-1)%Z
  | Eq => 0%Z
  | Gt => 1%Z
  end.

(** [a.localeCompare(b)] under that collation. *)
Definition root (a b : string) : Z :=
  of_comparison (String.compare (sort_key a) (sort_key b)).

(** Comparison by code units: the case-sensitive lexicographic order. *)
Definition code_units (a b : string) : Z :=
  of_comparison (String.compare a b).

End Collation.

(* ===================================================================== *)
(** ** A small account to run the program on *)
(* ===================================================================== *)

Module Acme.

Definition dq : string := String (ascii_of_nat 34) "".
Definition quoted (s : string) : string := dq ++ s ++ dq.

Definition bar_raw : RawRepo := mkRaw "bar" (Some (Some "develop")) "acme/bar".
Definition foo_raw : RawRepo := mkRaw "foo" (Some (Some "main")) "acme/foo".
Definition new_raw : RawRepo := mkRaw "new" None "acme/new".

Definition bar : Repository := mkRepo "bar" "develop" "acme/bar".
Definition foo : Repository := mkRepo "foo" "main" "acme/foo".
Definition new : Repository := mkRepo "new" "main" "acme/new".

Definition entry (r : RawRepo) : string :=
  "{" ++ quoted "defaultBranchRef" ++ ":" ++
  match defaultBranchRef r with
  | Some (Some b) => "{" ++ quoted "name" ++ ":" ++ quoted b ++ "}"
  | Some None => "{}"
  | None => "null"
  end ++ "," ++
  quoted "name" ++ ":" ++ quoted (raw_name r) ++ "," ++
  quoted "nameWithOwner" ++ ":" ++ quoted (nameWithOwner r) ++ "}".

(** The text [gh repo list] prints for the given entries. *)
Definition listing (raws : list RawRepo) : string :=
  "[" ++ Js.join "," (map entry raws) ++ "]".

(** [JSON.parse], on the one text it is given here. *)
Definition parse_listing (raws : list RawRepo) (text : string)
  : JsError + list RawRepo :=
  if text =? listing raws then inr raws
  else inl (Error "Unexpected end of JSON input").

(** The account as [gh] shows it: in [bar] the branch [x] is there
    already, [foo] takes any branch, [new] has no commit yet. *)
Definition gh (raws : list RawRepo) (_ : list Event) (cmd : string) : ExecOutcome :=
  if cmd =? "gh --version" then Succeeds "gh version 2.63.0"
  else if cmd =? "gh api user --jq .login" then Succeeds ("acme" ++ Js.nl)
  else if cmd =? list_command "acme" then Succeeds (listing raws)
  else if cmd =? view_command "acme" "bar" then Succeeds ("develop" ++ Js.nl)
  else if cmd =? view_command "acme" "foo" then Succeeds ("main" ++ Js.nl)
  else if cmd =? view_command "acme" "new" then Succeeds Js.nl
  else if cmd =? sha_command "acme" "bar" "develop" then Succeeds ("1111111" ++ Js.nl)
  else if cmd =? sha_command "acme" "foo" "main" then Succeeds ("2222222" ++ Js.nl)
  else if cmd =? ref_command "acme" "bar" "x" "1111111"
       then Fails ("gh: Reference already exists (HTTP 422)" ++ Js.nl)
  else if cmd =? ref_command "acme" "foo" "x" "2222222" then Succeeds "{}"
  else Fails ("gh: Not Found (HTTP 404)" ++ Js.nl).

(** The account when [gh repo list] answers with the given entries and
    the user ticks the given boxes. *)
Definition account (raws : list RawRepo) (ticks : list bool) : World :=
  {| GITHUB_ORG := "";
     colors := false;
     sh := gh raws;
     JSON_parse := parse_listing raws;
     localeCompare := Collation.root;
     checkbox := fun _ => Answered ticks |}.

(** The listing comes as [foo], [new], [bar]; the user ticks nothing. *)
Definition world : World := account [foo_raw; new_raw; bar_raw] [].

Definition Zeta_raw : RawRepo := mkRaw "Zeta" (Some (Some "main")) "acme/Zeta".
Definition alpha_raw : RawRepo := mkRaw "alpha" (Some (Some "main")) "acme/alpha".
Definition Zeta : Repository := mkRepo "Zeta" "main" "acme/Zeta".
Definition alpha : Repository := mkRepo "alpha" "main" "acme/alpha".

End Acme.

(* ===================================================================== *)
(** ** Notions used in the statements *)
(* ===================================================================== *)

(** [a] does not come after [b] under the comparator. *)
Definition not_after {A} (cmp : A -> A -> Z) (a b : A) : Prop := (cmp a b <= 0)%Z.

(** [x] and [y] compare equal. *)
Definition tied {A} (cmp : A -> A -> Z) (x y : A) : bool := (cmp x y =? 0)%Z.

(** Ascending by full name in the case-sensitive lexicographic order. *)
Definition lexicographically_sorted (repos : list Repository) : Prop :=
  StronglySorted
    (fun a b => (Collation.code_units (full_name a) (full_name b) <= 0)%Z) repos.

(** Every name of the warning is in it exactly once. *)
Definition each_listed_once (repoNames : list string) (allRepos : list Repository)
  : Prop :=
  forall l, In l (notFound repoNames allRepos) ->
            count_occ string_dec (notFound repoNames allRepos) l = 1%nat.

(** The first four statements of the [try] block of [run], with what they
    bind: the owner, the listing and the selection. *)
Definition chosen (w : World) (repoNames : list string)
  : M (string * list Repository * list Repository) :=
  owner <- validateAndGetOwner w ;;
  console_log [Str (chalk w blue ("🔍 Fetching repositories for " ++ owner ++ "..."))] ;;
  allRepos <- getRepositories w owner ;;
  selectedRepos <- select w allRepos repoNames ;;
  ret (owner, allRepos, selectedRepos).

(** The commands [createBranch] runs are the only ones that start with
    [gh repo view] or with [gh api repos/]. *)
Definition is_branch_creation_call (ev : Event) : bool :=
  match ev with
  | Exec cmd => String.prefix "gh repo view " cmd || String.prefix "gh api repos/" cmd
  | _ => false
  end.

Definition branch_creation_calls (evs : list Event) : list Event :=
  filter is_branch_creation_call evs.

(** The three commands of [createBranch] for a repository, whatever the
    default branch and the commit turn out to be. *)
Definition creates_branch_in (owner branchName : string) (repo : Repository)
    (cmd : string) : Prop :=
  cmd = view_command owner (name repo) \/
  (exists branch, cmd = sha_command owner (name repo) branch) \/
  (exists sha, cmd = ref_command owner (name repo) branchName sha).

Definition is_task_state (ev : Event) : bool :=
  match ev with
  | TaskState _ _ => true
  | _ => false
  end.

(** Every event a computation appends satisfies [P]. *)
Definition emits {A} (P : Event -> Prop) (m : M A) : Prop :=
  forall h, Forall P (snd (m h)).

(** A computation ends with a value that satisfies [V] or throws an error
    that satisfies [T]; it does not end the process. *)
Definition ends {A} (V : A -> Prop) (T : JsError -> Prop) (m : M A) : Prop :=
  forall h, match fst (m h) with
            | Val a => V a
            | Throw e => T e
            | Exit _ => False
            end.

Definition calm (ev : Event) : Prop :=
  is_branch_creation_call ev = false /\ is_task_state ev = false.

Definition task_error (w : World) (err : JsError) : Prop :=
  err = Error (chalk w yellow "Branch already exists") \/
  exists cmd text, err = command_failed cmd text.

Definition branch_command (owner branchName : string) (repo : Repository) (ev : Event) : Prop :=
  exists cmd, ev = Exec cmd /\ creates_branch_in owner branchName repo cmd.

Definition exec_failure (e : JsError) : Prop := exists cmd text, e = command_failed cmd text.

Definition not_failed (ev : Event) : Prop :=
  forall title msg, ev <> TaskState title (Failed msg).

Definition no_selection_line (w : World) : Event :=
  Console Log [Str (chalk w yellow "No repositories selected")].

Definition banner_line (w : World) (branchName : string) (n : nat) : Event :=
  Console Log [Str (creating_banner w branchName n)].

Definition done_line (w : World) : Event :=
  Console Log [Str (chalk w green (Js.nl ++ "✨ All done!"))].

Definition error_line (w : World) (err : JsError) : Event :=
  Console Err [Str (chalk w red "Error:"); Obj err].

Definition cancelled_line (w : World) : Event :=
  Console Log [Str (chalk w yellow (Js.nl ++ "Operation cancelled"))].

Definition fetching_line (w : World) (owner : string) : Event :=
  Console Log [Str (chalk w blue ("🔍 Fetching repositories for " ++ owner ++ "..."))].

Definition for_selected (owner b : string) (sel : list Repository) (ev : Event) : Prop :=
  is_branch_creation_call ev = false \/ exists r, In r sel /\ branch_command owner b r ev.

(* ===================================================================== *)
(** ** The start of the variant that talks to the REST interface *)
(* ===================================================================== *)

(** The lines that variant runs before anything else: the configuration
    read from the environment, its validation, and the exit when it is
    not valid. *)
Module Startup.

(** The three variables, each [process.env.X || ""], and whether a [.env]
    file is in the working directory. *)
Record Environment : Type := mkEnv {
  ORG : string;
  OWNER_NAME : string;
  TOKEN : string;
  env_file_exists : bool
}.

(** [const OWNER = GITHUB_ORG || GITHUB_OWNER] *)
Definition OWNER (env : Environment) : string :=
  Js.or_else (ORG env) (OWNER_NAME env).

Definition checkEnvFile (env : Environment) : bool := env_file_exists env.

Definition validateEnv (w : World) (env : Environment) : M bool :=
  if negb (Js.truthy (OWNER env)) then
    console_error
      [Str (chalk w red "❌ Neither BRANCH_SYNC_GITHUB_ORG nor BRANCH_SYNC_GITHUB_OWNER found in environment variables")] ;;
    console_error
      [Str (chalk w yellow "Please set either BRANCH_SYNC_GITHUB_ORG or BRANCH_SYNC_GITHUB_OWNER in your .env file or as environment variable")] ;;
    ret false
  else if negb (Js.truthy (TOKEN env)) then
    console_error
      [Str (chalk w red "❌ BRANCH_SYNC_GITHUB_TOKEN not found in environment variables")] ;;
    console_error
      [Str (chalk w yellow "Please set BRANCH_SYNC_GITHUB_TOKEN in your .env file or as environment variable")] ;;
    ret false
  else ret true.

(** [if (!validateEnv()) { if (!checkEnvFile()) { ... } process.exit(1); }] *)
Definition check (w : World) (env : Environment) : M unit :=
  valid <- validateEnv w env ;;
  if negb valid then
    (if negb (checkEnvFile env) then
       console_error [Str (chalk w red (Js.nl ++ "No .env file found!"))] ;;
       console_error [Str (chalk w yellow "Create a .env file with:")] ;;
       console_error [Str (chalk w yellow "BRANCH_SYNC_GITHUB_TOKEN=your_token_here")] ;;
       console_error [Str (chalk w yellow "BRANCH_SYNC_GITHUB_OWNER=your_username")]
     else ret tt) ;;
    process_exit 1
  else ret tt.

(** The hint printed when there is no [.env] file. *)
Definition env_file_hint (w : World) : list Event :=
  [Console Err [Str (chalk w red (Js.nl ++ "No .env file found!"))];
   Console Err [Str (chalk w yellow "Create a .env file with:")];
   Console Err [Str (chalk w yellow "BRANCH_SYNC_GITHUB_TOKEN=your_token_here")];
   Console Err [Str (chalk w yellow "BRANCH_SYNC_GITHUB_OWNER=your_username")]].

End Startup.

(* ===================================================================== *)
(** ** Notions used in the further statements *)
(* ===================================================================== *)

(** The command that asks [gh] who is logged in. *)
Definition login_command : string := "gh api user --jq .login".

(** The command that probes for [gh]. *)
Definition probe_command : string := "gh --version".

(** What [validateAndGetOwner] prints when the owner cannot be found. *)
Definition owner_guidance (w : World) : list Event :=
  [Console Err [Str (chalk w red "❌ Unable to determine GitHub owner")];
   Console Err [Str (chalk w yellow "Please either:")];
   Console Err [Str (chalk w yellow "1. Set BRANCH_SYNC_GITHUB_ORG in your .env file")];
   Console Err [Str (chalk w yellow "2. Run 'gh auth login' to authenticate with GitHub CLI")]].

(** What the wrapper prints when [gh] is not there. *)
Definition install_guidance (w : World) : list Event :=
  [Console Err [Str (chalk w red "❌ GitHub CLI not found")];
   Console Err [Str (chalk w yellow "Please install GitHub CLI: https://cli.github.com/")]].

(** The error [getCurrentUser] throws. *)
Definition login_failure : JsError :=
  Error "Failed to get GitHub user. Please run 'gh auth login'".

(** What [getRepositories] prints before it rethrows. *)
Definition fetch_failure_line (w : World) (e : JsError) : Event :=
  Console Err [Str (chalk w red "Failed to fetch repositories:"); Obj e].

Definition is_prompt (ev : Event) : bool :=
  match ev with
  | Prompt _ => true
  | _ => false
  end.

Definition is_warning (ev : Event) : bool :=
  match ev with
  | Console Warn _ => true
  | _ => false
  end.

(** The states of tasks among the events, in order. *)
Definition task_records (evs : list Event) : list Event :=
  filter is_task_state evs.

Definition completed (w : World) (repo : Repository) : Event :=
  TaskState (task_title w repo) Completed.

(** The error a task throws for a branch that is there already. *)
Definition already_exists (w : World) : JsError :=
  Error (chalk w yellow "Branch already exists").

(** A computation does not end the process, whatever it returns or throws. *)
Definition stays {A} (m : M A) : Prop :=
  ends (fun _ : A => True) (fun _ => True) m.

(** The account of [Acme] in other situations. *)
Module Situations.

Definition with_world (org : string) (shell : list Event -> string -> ExecOutcome)
    (parser : string -> JsError + list RawRepo) (prompt : list string -> PromptOutcome)
  : World :=
  {| GITHUB_ORG := org;
     colors := false;
     sh := shell;
     JSON_parse := parser;
     localeCompare := Collation.root;
     checkbox := prompt |}.

(** The organization [acme] is configured. *)
Definition configured : World :=
  with_world "acme" (sh Acme.world) (JSON_parse Acme.world) (checkbox Acme.world).

(** Nobody is logged in: every command fails. *)
Definition logged_out : World :=
  with_world "" (fun _ _ => Fails "gh: not logged in")
    (JSON_parse Acme.world) (checkbox Acme.world).

(** The configured organization does not exist. *)
Definition nobody : World :=
  with_world "nobody" (sh Acme.world) (JSON_parse Acme.world) (checkbox Acme.world).

(** The listing does not parse. *)
Definition garbled : World :=
  with_world "acme" (sh Acme.world)
    (fun _ => inl (Error "Unexpected end of JSON input")) (checkbox Acme.world).

(** The user cancels the prompt. *)
Definition cancelling : World :=
  with_world "acme" (sh Acme.world) (JSON_parse Acme.world)
    (fun _ => Rejected (Error "Prompt was cancelled")).

(** An environment with a token and nothing else, and no [.env] file. *)
Definition token_only : Startup.Environment := Startup.mkEnv "" "" "secret" false.

End Situations.

(* ===================================================================== *)
(** ** Facts about strings and arrays *)
(* ===================================================================== *)

Lemma append_assoc (a b c : string) : ((a ++ b) ++ c = a ++ b ++ c)%string.
Proof.
  induction a as [|x a IH]; simpl; [reflexivity | now rewrite IH].
Qed.

Lemma prefix_append (a b : string) : String.prefix a (a ++ b)%string = true.
Proof.
  induction a as [|x a IH]; simpl.
  - now destruct b.
  - destruct (ascii_dec x x) as [_|ne]; [exact IH | now elim ne].
Qed.

Lemma includes_prefix (needle hay : string) :
  String.prefix needle hay = true -> Js.includes needle hay = true.
Proof.
  intros H. destruct hay; cbn [Js.includes]; rewrite H; reflexivity.
Qed.

Lemma includes_append (needle before after : string) :
  Js.includes needle (before ++ needle ++ after)%string = true.
Proof.
  induction before as [|x before IH].
  - cbn [append]. apply includes_prefix, prefix_append.
  - change (Js.includes needle (String x (before ++ needle ++ after)%string) = true).
    cbn [Js.includes]. rewrite IH. apply orb_true_r.
Qed.

Lemma array_includes_In (l : list string) (x : string) :
  Js.array_includes l x = true <-> In x l.
Proof.
  unfold Js.array_includes. rewrite existsb_exists. split.
  - intros [y [Hy E]]. apply String.eqb_eq in E. now subst.
  - intros H. exists x. split; [assumption | apply String.eqb_refl].
Qed.

Lemma some_name_spec (allRepos : list Repository) (n : string) :
  existsb (fun repo => name repo =? n) allRepos = true <->
  exists r, In r allRepos /\ name r = n.
Proof.
  rewrite existsb_exists. split; intros [r [Hr E]]; exists r; split; trivial;
    now apply String.eqb_eq.
Qed.

Lemma named_spec (repoNames : list string) (allRepos : list Repository) r :
  In r (named repoNames allRepos) <-> In r allRepos /\ In (name r) repoNames.
Proof.
  unfold named. rewrite filter_In, array_includes_In. reflexivity.
Qed.

Lemma notFound_spec (repoNames : list string) (allRepos : list Repository) l :
  In l (notFound repoNames allRepos) <->
  In l repoNames /\ forall r, In r allRepos -> name r <> l.
Proof.
  unfold notFound. rewrite filter_In, negb_true_iff.
  split; intros [Hl H]; split; trivial.
  - intros r Hr E.
    assert (T : existsb (fun repo => name repo =? l) allRepos = true)
      by (apply some_name_spec; eauto).
    congruence.
  - destruct (existsb _ allRepos) eqn:E; trivial.
    apply some_name_spec in E. destruct E as [r [Hr E]]. now elim (H r Hr).
Qed.

Lemma named_same_names (L L' : list string) (R : list Repository) :
  (forall l, In l L <-> In l L') -> named L' R = named L R.
Proof.
  intros same. unfold named. apply filter_ext. intros r.
  destruct (Js.array_includes L (name r)) eqn:E.
  - apply array_includes_In. apply same. now apply array_includes_In.
  - destruct (Js.array_includes L' (name r)) eqn:E'; trivial.
    apply array_includes_In, same, array_includes_In in E'. congruence.
Qed.

Lemma positive_length {A} (l : list A) :
  (0 <? List.length l)%nat = true <-> l <> [].
Proof.
  destruct l as [|x l]; simpl; split; intros H.
  - discriminate.
  - now elim H.
  - discriminate.
  - reflexivity.
Qed.

(** What [select] does with names on the command line. *)
Lemma select_named (w : World) (R : list Repository) (L : list string) h :
  L <> [] ->
  select w R L h =
    (Val (named L R),
     if (0 <? List.length (notFound L R))%nat
     then [Console Warn [Str (not_found_warning w (notFound L R))]]
     else []).
Proof.
  intros HL. apply positive_length in HL. unfold select. rewrite HL.
  unfold bind, console_warn, emit, ret.
  destruct (0 <? List.length (notFound L R))%nat; reflexivity.
Qed.

Lemma notFound_app (L1 L2 : list string) (R : list Repository) :
  notFound (L1 ++ L2) R = notFound L1 R ++ notFound L2 R.
Proof. apply filter_app. Qed.

Lemma count_occ_filter_true (f : string -> bool) (L : list string) (l : string) :
  f l = true -> count_occ string_dec (filter f L) l = count_occ string_dec L l.
Proof.
  intros Hf. induction L as [|x L IH]; simpl; trivial.
  destruct (string_dec x l) as [->|ne].
  - rewrite Hf. simpl. destruct (string_dec l l); congruence.
  - destruct (f x); simpl; trivial. destruct (string_dec x l); congruence.
Qed.

Lemma count_occ_filter_false (f : string -> bool) (L : list string) (l : string) :
  f l = false -> count_occ string_dec (filter f L) l = 0%nat.
Proof.
  intros Hf. apply count_occ_not_In. rewrite filter_In. intros [_ T]. congruence.
Qed.

(* ===================================================================== *)
(** ** Sorting *)
(* ===================================================================== *)

Section SortFacts.

Context {A : Type} (cmp : A -> A -> Z).

Lemma sort_insert_perm a l : Permutation (Js.sort_insert cmp a l) (a :: l).
Proof.
  induction l as [|b l IH]; simpl.
  - apply Permutation_refl.
  - destruct (cmp a b <=? 0)%Z.
    + apply Permutation_refl.
    + eapply perm_trans; [apply perm_skip, IH | apply perm_swap].
Qed.

Lemma sort_perm l : Permutation (Js.sort cmp l) l.
Proof.
  induction l as [|a l IH]; simpl.
  - apply perm_nil.
  - eapply perm_trans; [apply sort_insert_perm | apply perm_skip, IH].
Qed.

Lemma sort_In l x : In x (Js.sort cmp l) <-> In x l.
Proof.
  split; apply Permutation_in; [apply sort_perm | apply Permutation_sym, sort_perm].
Qed.

(** The three laws of a consistent comparator, on the elements. *)
Hypothesis flip : forall a b, Z.sgn (cmp b a) = (- Z.sgn (cmp a b))%Z.
Hypothesis trans : forall a b c, (cmp a b <= 0)%Z -> (cmp b c <= 0)%Z -> (cmp a c <= 0)%Z.

Local Abbreviation not_after := (not_after cmp).
Local Abbreviation tied := (tied cmp).

Lemma after_not_after a b : (0 < cmp a b)%Z -> not_after b a.
Proof. unfold not_after. specialize (flip a b). lia. Qed.

Lemma sort_insert_sorted a l :
  StronglySorted not_after l -> StronglySorted not_after (Js.sort_insert cmp a l).
Proof.
  induction 1 as [|b l Hs IH Hb]; simpl.
  - constructor; constructor.
  - destruct (cmp a b <=? 0)%Z eqn:E.
    + apply Z.leb_le in E. constructor.
      * now constructor.
      * constructor; trivial.
        eapply Forall_impl; [|exact Hb]. intros c Hc. now apply trans with b.
    + apply Z.leb_gt in E. constructor; trivial.
      eapply Permutation_Forall; [apply Permutation_sym, sort_insert_perm|].
      constructor; trivial. now apply after_not_after.
Qed.

Lemma sort_sorted l : StronglySorted not_after (Js.sort cmp l).
Proof.
  induction l as [|a l IH]; simpl; [constructor | now apply sort_insert_sorted].
Qed.

(** Stability: the elements that compare equal to a given one come out in
    the order they came in. *)
Lemma sort_insert_tied x a l :
  StronglySorted not_after l ->
  filter (tied x) (Js.sort_insert cmp a l) = filter (tied x) (a :: l).
Proof.
  induction 1 as [|b l Hs IH Hb]; trivial.
  cbn [Js.sort_insert]. destruct (cmp a b <=? 0)%Z eqn:E; trivial.
  apply Z.leb_gt in E.
  cbn [filter] in *. rewrite IH.
  destruct (tied x a) eqn:Ta, (tied x b) eqn:Tb; trivial.
  unfold tied in Ta, Tb. apply Z.eqb_eq in Ta, Tb.
  assert (Hax : (cmp a x <= 0)%Z) by (specialize (flip x a); lia).
  assert (Hxb : (cmp x b <= 0)%Z) by lia.
  pose proof (trans Hax Hxb) as Hab. lia.
Qed.

Lemma sort_stable x l : filter (tied x) (Js.sort cmp l) = filter (tied x) l.
Proof.
  induction l as [|a l IH]; trivial.
  cbn [Js.sort]. rewrite sort_insert_tied by apply sort_sorted.
  cbn [filter]. now rewrite IH.
Qed.

(** A sorted list is left as it is. *)
Lemma sort_insert_first a l :
  Forall (not_after a) l -> Js.sort_insert cmp a l = a :: l.
Proof.
  destruct 1 as [|b l Hb Hl]; simpl; trivial.
  apply Z.leb_le in Hb. now rewrite Hb.
Qed.

Lemma sort_sorted_id l : StronglySorted not_after l -> Js.sort cmp l = l.
Proof.
  induction 1 as [|a l Hs IH Ha]; simpl; trivial.
  rewrite IH. now apply sort_insert_first.
Qed.

(** Two sorted arrangements of the same elements are the same when no two
    different elements are tied. *)
Lemma sorted_perm_unique l1 l2 :
  (forall a b, In a l1 -> In b l1 -> cmp a b = 0%Z -> a = b) ->
  StronglySorted not_after l1 -> StronglySorted not_after l2 ->
  Permutation l1 l2 -> l1 = l2.
Proof.
  intros sep S1. revert l2. induction S1 as [|a l1 S1 IH Ha]; intros l2 S2 P.
  - now apply Permutation_nil in P.
  - destruct S2 as [|b l2 S2 Hb].
    + apply Permutation_sym, Permutation_nil in P. discriminate.
    + assert (E : a = b).
      { assert (Ia : In a (b :: l2)) by (eapply Permutation_in; [exact P | now left]).
        assert (Ib : In b (a :: l1))
          by (eapply Permutation_in; [apply Permutation_sym, P | now left]).
        destruct Ia as [->|Ia]; trivial. destruct Ib as [->|Ib]; trivial.
        rewrite Forall_forall in Ha, Hb.
        specialize (Ha _ Ib). specialize (Hb _ Ia). unfold not_after in Ha, Hb.
        apply sep; [now left | now right |].
        specialize (flip a b). lia. }
      subst b. f_equal. apply IH; trivial.
      * intros x y Hx Hy. apply sep; now right.
      * now apply Permutation_cons_inv in P.
Qed.

Lemma sort_input_order l1 l2 :
  (forall a b, In a l1 -> In b l1 -> cmp a b = 0%Z -> a = b) ->
  Permutation l1 l2 -> Js.sort cmp l1 = Js.sort cmp l2.
Proof.
  intros sep P. apply sorted_perm_unique; try apply sort_sorted.
  - intros a b Ha Hb. apply sep; now apply sort_In.
  - eapply perm_trans; [apply sort_perm|].
    eapply perm_trans; [exact P | apply Permutation_sym, sort_perm].
Qed.

End SortFacts.

(* ===================================================================== *)
(** ** The two comparators are consistent *)
(* ===================================================================== *)

Lemma compare_not_Gt_trans (x y z : string) :
  String.compare x y <> Gt -> String.compare y z <> Gt -> String.compare x z <> Gt.
Proof.
  intros Hxy Hyz Hxz.
  assert (Lzx : String_as_OT.lt z x).
  { apply String_as_OT.cmp_lt. unfold String_as_OT.cmp.
    rewrite String.compare_antisym, Hxz. reflexivity. }
  destruct (String.compare x y) eqn:Exy; try congruence.
  - apply String.compare_eq_iff in Exy. subst y.
    rewrite String.compare_antisym in Hyz.
    apply String_as_OT.cmp_lt in Lzx. unfold String_as_OT.cmp in Lzx.
    rewrite Lzx in Hyz. now apply Hyz.
  - apply String_as_OT.cmp_lt in Exy.
    destruct (String.compare y z) eqn:Eyz; try congruence.
    + apply String.compare_eq_iff in Eyz. subst z.
      apply (String_as_OT.lt_not_eq _ _ (String_as_OT.lt_trans _ _ _ Exy Lzx)). reflexivity.
    + apply String_as_OT.cmp_lt in Eyz.
      apply (String_as_OT.lt_not_eq _ _
               (String_as_OT.lt_trans _ _ _ Exy (String_as_OT.lt_trans _ _ _ Eyz Lzx))).
      reflexivity.
Qed.

Lemma of_comparison_le (c : comparison) : (Collation.of_comparison c <= 0)%Z <-> c <> Gt.
Proof. destruct c; simpl; split; intros; try lia; congruence. Qed.

Lemma by_key_consistent (key : string -> string) :
  Consistent (fun a b => Collation.of_comparison (String.compare (key a) (key b))).
Proof.
  split.
  - intros a b. rewrite (String.compare_antisym (key a) (key b)).
    destruct (String.compare (key b) (key a)); reflexivity.
  - intros a b c. rewrite !of_comparison_le. apply compare_not_Gt_trans.
Qed.

Lemma root_consistent : Consistent Collation.root.
Proof. exact (by_key_consistent Collation.sort_key). Qed.

Lemma code_units_consistent : Consistent Collation.code_units.
Proof. exact (by_key_consistent (fun s => s)). Qed.

(* ===================================================================== *)
(** ** The Branch Creator *)
(* ===================================================================== *)

Lemma reference_already_exists_command_failed (cmd err : string) :
  reference_already_exists (command_failed cmd err) =
  Js.includes "Reference already exists" err.
Proof.
  unfold reference_already_exists, command_failed, stderr.
  destruct err; reflexivity.
Qed.

Lemma command_failed_names_repository (owner repoName branchName sha err : string) :
  exists before after,
    (message (command_failed (ref_command owner repoName branchName sha) err)
     = before ++ repoName ++ after)%string.
Proof.
  exists ("Command failed: gh api repos/" ++ owner ++ "/")%string.
  exists ("/git/refs -f ref=refs/heads/" ++ branchName ++ " -f sha=" ++ sha
          ++ Js.nl ++ err)%string.
  unfold command_failed, ref_command, message.
  change ("Command failed: gh api repos/" ++ owner ++ "/")%string
    with ("Command failed: " ++ "gh api repos/" ++ owner ++ "/")%string.
  change ("/git/refs -f ref=refs/heads/" ++ branchName ++ " -f sha=" ++ sha ++ Js.nl ++ err)%string
    with ("/git/refs -f ref=refs/heads/" ++ (branchName ++ " -f sha=" ++ sha ++ Js.nl ++ err))%string.
  repeat rewrite append_assoc. reflexivity.
Qed.

(** What [createBranch] does when the first two commands succeed. *)
Lemma createBranch_third_step (w : World) (owner repoName branchName : string)
    (h : list Event) (branchStdout shaStdout : string) :
  let view := view_command owner repoName in
  let sha := sha_command owner repoName (Js.or_else (Js.trim branchStdout) "main") in
  let create := ref_command owner repoName branchName (Js.trim shaStdout) in
  sh w h view = Succeeds branchStdout ->
  sh w (h ++ [Exec view]) sha = Succeeds shaStdout ->
  createBranch w owner repoName branchName h =
    match sh w ((h ++ [Exec view]) ++ [Exec sha]) create with
    | Succeeds _ => (Val tt, [Exec view; Exec sha; Exec create])
    | Fails err =>
        (Throw (if Js.includes "Reference already exists" err
                then Error "Branch already exists"
                else command_failed create err),
         [Exec view; Exec sha; Exec create])
    end.
Proof.
  intros view sha create H1 H2.
  unfold createBranch, try_catch, bind, exec, ret, throw.
  fold view. rewrite H1. fold sha. rewrite H2. fold create.
  destruct (sh w ((h ++ [Exec view]) ++ [Exec sha]) create) as [out|err].
  - reflexivity.
  - rewrite reference_already_exists_command_failed.
    destruct (Js.includes "Reference already exists" err); reflexivity.
Qed.

(** C2. When the command that creates the ref fails, [createBranch]
    throws the dedicated error "Branch already exists" if the error output
    of the command says "Reference already exists", and that error is not
    the failure of any command; otherwise it rethrows the failure of the
    command unchanged, which carries the error output (the cause) and, in
    its message, the command with the name of the repository. *)
Theorem createBranch_classifies_ref_failure (w : World)
    (owner repoName branchName : string) (h : list Event)
    (branchStdout shaStdout err : string) :
  let view := view_command owner repoName in
  let sha := sha_command owner repoName (Js.or_else (Js.trim branchStdout) "main") in
  let create := ref_command owner repoName branchName (Js.trim shaStdout) in
  sh w h view = Succeeds branchStdout ->
  sh w (h ++ [Exec view]) sha = Succeeds shaStdout ->
  sh w ((h ++ [Exec view]) ++ [Exec sha]) create = Fails err ->
  (Js.includes "Reference already exists" err = true ->
     fst (createBranch w owner repoName branchName h) = Throw (Error "Branch already exists") /\
     forall cmd text, Error "Branch already exists" <> command_failed cmd text)
  /\
  (Js.includes "Reference already exists" err = false ->
     exists cause,
       fst (createBranch w owner repoName branchName h) = Throw cause /\
       cause = command_failed create err /\
       stderr cause = Some err /\
       exists before after, (message cause = before ++ repoName ++ after)%string).
Proof.
  intros view sha create H1 H2 H3.
  rewrite (createBranch_third_step w owner repoName branchName h H1 H2).
  fold view sha create. rewrite H3. split; intros E; rewrite E.
  - split; [reflexivity | discriminate].
  - exists (command_failed create err). repeat split.
    apply command_failed_names_repository.
Qed.

Lemma createBranch_classifies_ref_failure_witness :
  fst (createBranch Acme.world "acme" "bar" "x" []) = Throw (Error "Branch already exists").
Proof.
  apply (proj1 (createBranch_classifies_ref_failure Acme.world "acme" "bar" "x" []
                  eq_refl eq_refl eq_refl)).
  reflexivity.
Defined.

(** C10. When the name that [gh repo view ... --jq .defaultBranchRef.name]
    prints for the default branch is empty once trimmed, the command
    [createBranch] runs next is the lookup of the head commit at
    [git/refs/heads/main] of the repository, not at an empty branch name;
    when that lookup succeeds the ref is created at the commit it printed,
    and when it fails nothing else is run. *)
Theorem createBranch_empty_default_branch (w : World)
    (owner repoName branchName : string) (h : list Event) (branchStdout : string) :
  let view :=
    ("gh repo view " ++ owner ++ "/" ++ repoName ++
     " --json defaultBranchRef --jq .defaultBranchRef.name")%string in
  let lookup :=
    ("gh api repos/" ++ owner ++ "/" ++ repoName ++
     "/git/refs/heads/main --jq .object.sha")%string in
  sh w h view = Succeeds branchStdout ->
  Js.trim branchStdout = "" ->
  snd (createBranch w owner repoName branchName h) =
    Exec view :: Exec lookup ::
      match sh w (h ++ [Exec view]) lookup with
      | Succeeds shaStdout =>
          [Exec ("gh api repos/" ++ owner ++ "/" ++ repoName ++
                 "/git/refs -f ref=refs/heads/" ++ branchName ++
                 " -f sha=" ++ Js.trim shaStdout)%string]
      | Fails _ => []
      end.
Proof.
  intros view lookup H1 E.
  change view with (view_command owner repoName) in *.
  change lookup with (sha_command owner repoName "main") in *.
  unfold createBranch, try_catch, bind, exec, ret, throw.
  rewrite H1, E. change (Js.or_else "" "main") with "main".
  destruct (sh w (h ++ [Exec (view_command owner repoName)])
              (sha_command owner repoName "main")) as [shaStdout|err].
  - change ("gh api repos/" ++ owner ++ "/" ++ repoName ++
            "/git/refs -f ref=refs/heads/" ++ branchName ++
            " -f sha=" ++ Js.trim shaStdout)%string
      with (ref_command owner repoName branchName (Js.trim shaStdout)).
    destruct (sh w _ (ref_command owner repoName branchName (Js.trim shaStdout))).
    + reflexivity.
    + match goal with
      | |- context [if ?c then _ else _] => destruct c
      end; reflexivity.
  - match goal with
    | |- context [if ?c then _ else _] => destruct c
    end; reflexivity.
Qed.

Lemma createBranch_empty_default_branch_witness :
  snd (createBranch Acme.world "acme" "new" "x" []) =
    [Exec "gh repo view acme/new --json defaultBranchRef --jq .defaultBranchRef.name";
     Exec "gh api repos/acme/new/git/refs/heads/main --jq .object.sha"].
Proof.
  exact (createBranch_empty_default_branch Acme.world "acme" "new" "x" []
           (branchStdout := Js.nl) eq_refl eq_refl).
Defined.

(** In the variant written against the REST interface the signal is the
    status 422 of the rejected request: it gives the same dedicated error,
    and every other rejection of the request is rethrown as it is. *)
Lemma rest_createBranch_ref_failure (client : Octokit.Rest)
    (repoName branchName branch sha : string) (error : JsError) :
  Octokit.repos_get client (Octokit.OWNER client) repoName = inr branch ->
  Octokit.git_getRef client (Octokit.OWNER client) repoName ("heads/" ++ branch)
    = inr sha ->
  Octokit.git_createRef client (Octokit.OWNER client) repoName
    ("refs/heads/" ++ branchName) sha = inl error ->
  (status error = Some 422%Z ->
   Octokit.createBranch client repoName branchName = inl (Error "Branch already exists")) /\
  (status error <> Some 422%Z ->
   Octokit.createBranch client repoName branchName = inl error).
Proof.
  intros H1 H2 H3. unfold Octokit.createBranch, Octokit.rethrow, Octokit.unprocessable.
  rewrite H1, H2, H3. split.
  - intros ->. reflexivity.
  - intros Hs. destruct (status error) as [code|]; trivial.
    destruct (code =? 422)%Z eqn:E; trivial.
    apply Z.eqb_eq in E. subst. now elim Hs.
Qed.

(* ===================================================================== *)
(** ** The Repository Lister *)
(* ===================================================================== *)

(** In the variant written against the REST interface an entry without a
    default branch is given the default branch [main] as well. *)
Lemma rest_missing_default_branch (repos : list Octokit.RestRepo)
    (r : Octokit.RestRepo) :
  In r repos -> Octokit.default_branch r = None ->
  In (mkRepo (Octokit.rest_name r) "main" (Octokit.rest_full_name r))
     (Octokit.getRepositories repos).
Proof.
  intros Hin Hnone. unfold Octokit.getRepositories.
  apply in_map_iff. exists r. split; trivial.
  unfold Octokit.normalize. now rewrite Hnone.
Qed.

(** The listing, when the command succeeds and its output parses. *)
Lemma getRepositories_listing (w : World) (owner : string) (h : list Event)
    (stdout : string) (raws : list RawRepo) :
  sh w h (list_command owner) = Succeeds stdout ->
  JSON_parse w stdout = inr raws ->
  getRepositories w owner h =
    (Val (Js.sort (by_full_name w) (map normalize raws)), [Exec (list_command owner)]).
Proof.
  intros H1 H2.
  unfold getRepositories, try_catch, bind, exec, parse, ret.
  rewrite H1, H2. reflexivity.
Qed.

(** C7. Every entry of the listing whose default-branch information is
    missing (the object is null or absent, or it has no name, or the name
    is empty) is returned by the Lister with the default branch [main]. *)
Theorem getRepositories_missing_default_branch (w : World) (owner : string)
    (h : list Event) (stdout : string) (raws : list RawRepo) :
  sh w h (list_command owner) = Succeeds stdout ->
  JSON_parse w stdout = inr raws ->
  exists repos,
    fst (getRepositories w owner h) = Val repos /\
    forall raw,
      In raw raws ->
      defaultBranchRef raw = None \/ defaultBranchRef raw = Some None \/
      defaultBranchRef raw = Some (Some "") ->
      defaultBranch (normalize raw) = "main" /\
      In (normalize raw) repos /\
      In (mkRepo (raw_name raw) "main" (nameWithOwner raw)) repos.
Proof.
  intros H1 H2. eexists. split.
  - rewrite (getRepositories_listing w owner h H1 H2). reflexivity.
  - intros raw Hin Hmiss.
    assert (E : defaultBranch (normalize raw) = "main").
    { unfold normalize, default_branch_of, defaultBranch.
      destruct Hmiss as [-> | [-> | ->]]; reflexivity. }
    assert (I : In (normalize raw) (Js.sort (by_full_name w) (map normalize raws))).
    { apply sort_In. now apply in_map. }
    repeat split; trivial.
    replace (mkRepo (raw_name raw) "main" (nameWithOwner raw)) with (normalize raw);
      trivial.
    unfold normalize. f_equal. exact E.
Qed.

Lemma getRepositories_missing_default_branch_witness :
  exists repos,
    fst (getRepositories Acme.world "acme" []) = Val repos /\
    In (mkRepo "new" "main" "acme/new") repos.
Proof.
  destruct (getRepositories_missing_default_branch Acme.world "acme" []
              (stdout := Acme.listing [Acme.foo_raw; Acme.new_raw; Acme.bar_raw])
              eq_refl eq_refl) as [repos [E H]].
  exists repos. split; [exact E|].
  apply (H Acme.new_raw); simpl; auto.
Defined.

(** C6, as the program has it.  When the comparison of the host locale is
    consistent, the Lister returns the normalized entries of the listing
    rearranged so that no entry comes after a later one under that
    comparison of the full names; entries whose full names compare equal
    keep the order of the listing; and the result is the same for every
    order of the listing in which no two different entries have full
    names that compare equal. *)
Theorem getRepositories_sorted_by_collation (w : World) (owner : string)
    (h : list Event) (stdout : string) (raws : list RawRepo) :
  Consistent (localeCompare w) ->
  sh w h (list_command owner) = Succeeds stdout ->
  JSON_parse w stdout = inr raws ->
  exists repos,
    fst (getRepositories w owner h) = Val repos /\
    Permutation repos (map normalize raws) /\
    StronglySorted
      (fun a b => (localeCompare w (full_name a) (full_name b) <= 0)%Z) repos /\
    (forall x, filter (tied (by_full_name w) x) repos
               = filter (tied (by_full_name w) x) (map normalize raws)) /\
    (forall raws',
        Permutation raws raws' ->
        (forall a b, In a raws -> In b raws ->
                     localeCompare w (nameWithOwner a) (nameWithOwner b) = 0%Z ->
                     a = b) ->
        Js.sort (by_full_name w) (map normalize raws') = repos).
Proof.
  intros [flip trans] H1 H2.
  exists (Js.sort (by_full_name w) (map normalize raws)).
  assert (F : forall a b, Z.sgn (by_full_name w b a) = (- Z.sgn (by_full_name w a b))%Z)
    by (intros; apply flip).
  assert (T : forall a b c, (by_full_name w a b <= 0)%Z -> (by_full_name w b c <= 0)%Z ->
                            (by_full_name w a c <= 0)%Z)
    by (intros a b c; apply trans).
  split; [now rewrite (getRepositories_listing w owner h H1 H2)|].
  split; [apply sort_perm|].
  split; [exact (@sort_sorted _ _ F T _)|].
  split; [intros x; exact (@sort_stable _ _ F T x _)|].
  intros raws' P sep. symmetry. apply (@sort_input_order _ _ F T).
  - intros a b Ha Hb E.
    apply in_map_iff in Ha, Hb.
    destruct Ha as [ra [<- Ha]], Hb as [rb [<- Hb]].
    f_equal. now apply sep.
  - now apply Permutation_map.
Qed.

Lemma getRepositories_sorted_by_collation_witness :
  exists repos,
    fst (getRepositories Acme.world "acme" []) = Val repos /\
    Permutation repos (map normalize [Acme.foo_raw; Acme.new_raw; Acme.bar_raw]).
Proof.
  destruct (getRepositories_sorted_by_collation Acme.world "acme" []
              (stdout := Acme.listing [Acme.foo_raw; Acme.new_raw; Acme.bar_raw])
              root_consistent eq_refl eq_refl) as [repos [E [P _]]].
  exists repos. split; [exact E | exact P].
Defined.

(** Where the comparison of the host is the comparison by code units, the
    listing does come back in the case-sensitive lexicographic order. *)
Lemma getRepositories_lexicographic_by_code_units (w : World) (owner : string)
    (h : list Event) (stdout : string) (raws : list RawRepo) :
  (forall a b, localeCompare w a b = Collation.code_units a b) ->
  sh w h (list_command owner) = Succeeds stdout ->
  JSON_parse w stdout = inr raws ->
  exists repos,
    fst (getRepositories w owner h) = Val repos /\
    lexicographically_sorted repos.
Proof.
  intros same H1 H2.
  exists (Js.sort (by_full_name w) (map normalize raws)).
  split; [now rewrite (getRepositories_listing w owner h H1 H2)|].
  destruct code_units_consistent as [flip trans].
  assert (S : StronglySorted (not_after (by_full_name w))
                (Js.sort (by_full_name w) (map normalize raws))).
  { apply sort_sorted; unfold by_full_name.
    - intros a b. rewrite !same. apply flip.
    - intros a b c. rewrite !same. apply trans. }
  unfold lexicographically_sorted.
  induction S as [|a l S IH F]; constructor; trivial.
  eapply Forall_impl; [|exact F].
  intros b Hb. unfold not_after, by_full_name in Hb. now rewrite same in Hb.
Qed.

(** C6, as the claim has it, fails: with the default collation the listing
    [acme/Zeta], [acme/alpha] comes back as [acme/alpha], [acme/Zeta],
    which is not ascending in the case-sensitive lexicographic order,
    where every upper-case letter comes before every lower-case one. *)
Lemma getRepositories_not_lexicographic :
  fst (getRepositories (Acme.account [Acme.Zeta_raw; Acme.alpha_raw] []) "acme" [])
    = Val [Acme.alpha; Acme.Zeta] /\
  ~ lexicographically_sorted [Acme.alpha; Acme.Zeta].
Proof.
  split; [reflexivity|].
  intros S. inversion S as [|a l _ F]; subst.
  inversion F as [|b l' Hle _]; subst.
  vm_compute in Hle. now apply Hle.
Qed.

(* ===================================================================== *)
(** ** The Selector *)
(* ===================================================================== *)

(** C4. With a non-empty list of names [L], selection returns the
    repositories of [R] whose name is in [L] (same string, case and all),
    and warns about the names of [L] that no repository of [R] has; both
    depend only on which names are in [L], not on their order or on
    repetitions, and a repository that is once in [R] is selected at most
    once. *)
Theorem select_by_name (w : World) (R : list Repository) (L : list string)
    (h : list Event) :
  L <> [] ->
  fst (select w R L h) = Val (named L R) /\
  snd (select w R L h) =
    (if (0 <? List.length (notFound L R))%nat
     then [Console Warn [Str (not_found_warning w (notFound L R))]]
     else []) /\
  (forall r, In r (named L R) <-> In r R /\ In (name r) L) /\
  (forall l, In l (notFound L R) <-> In l L /\ forall r, In r R -> name r <> l) /\
  (forall L', (forall l, In l L <-> In l L') ->
              named L' R = named L R /\
              forall l, In l (notFound L' R) <-> In l (notFound L R)) /\
  (NoDup R -> NoDup (named L R)) /\
  (NoDup (map name R) -> NoDup (map name (named L R))).
Proof.
  intros HL. rewrite (select_named w R h HL).
  split; [reflexivity|]. split; [reflexivity|].
  split; [intros r; apply named_spec|].
  split; [intros l; apply notFound_spec|].
  split.
  - intros L' same. split; [now apply named_same_names|].
    intros l. rewrite !notFound_spec, (same l). reflexivity.
  - split.
    + apply NoDup_filter.
    + unfold named. induction R as [|r R IH]; simpl; trivial.
      intros ND. inversion ND as [|x l Hx ND']; subst.
      destruct (Js.array_includes L (name r)); simpl; auto.
      constructor; auto.
      intros Hin. apply Hx. apply in_map_iff in Hin.
      destruct Hin as [r' [E Hr']]. apply filter_In in Hr'.
      apply in_map_iff. exists r'. tauto.
Qed.

Lemma select_by_name_witness :
  fst (select Acme.world [Acme.bar; Acme.foo] ["foo"; "baz"; "foo"] [])
    = Val [Acme.foo] /\
  snd (select Acme.world [Acme.bar; Acme.foo] ["foo"; "baz"; "foo"] [])
    = [Console Warn [Str "⚠️  Repositories not found: baz"]].
Proof.
  assert (HL : ["foo"; "baz"; "foo"] <> @nil string) by discriminate.
  destruct (@select_by_name Acme.world [Acme.bar; Acme.foo] ["foo"; "baz"; "foo"] [] HL)
    as [E [W _]].
  split; [exact E | exact W].
Defined.

(** C5, as the program has it.  When some name given matches no
    repository, there is one warning; it joins with ", " the unmatched
    entries of the list of names in the order given, one entry for each
    time a name was given: an unmatched name is in the warning as often as
    it is in the list, a matched name never, and each name is there once
    when the list repeats no name. *)
Theorem warning_lists_unmatched_entries (w : World) (R : list Repository)
    (L : list string) (h : list Event) :
  L <> [] ->
  notFound L R <> [] ->
  snd (select w R L h) =
    [Console Warn
       [Str (chalk w yellow
               ("⚠️  Repositories not found: " ++ Js.join ", " (notFound L R)))]] /\
  (forall l, (forall r, In r R -> name r <> l) ->
             count_occ string_dec (notFound L R) l = count_occ string_dec L l) /\
  (forall l r, In r R -> name r = l -> count_occ string_dec (notFound L R) l = 0%nat) /\
  (forall L1 L2, L = L1 ++ L2 -> notFound L R = notFound L1 R ++ notFound L2 R) /\
  (NoDup L -> each_listed_once L R).
Proof.
  intros HL HN. rewrite (select_named w R h HL).
  apply positive_length in HN. rewrite HN.
  split; [reflexivity|]. split; [|split; [|split]].
  - intros l Hl. apply count_occ_filter_true.
    apply negb_true_iff. destruct (existsb _ R) eqn:E; trivial.
    apply some_name_spec in E. destruct E as [r [Hr E]]. now elim (Hl r Hr).
  - intros l r Hr E. apply count_occ_filter_false.
    apply negb_false_iff. apply some_name_spec. eauto.
  - intros L1 L2 ->. apply notFound_app.
  - intros ND l Hl.
    assert (ND' : NoDup (notFound L R)) by now apply NoDup_filter.
    rewrite (NoDup_count_occ string_dec) in ND'. specialize (ND' l).
    apply (count_occ_In string_dec) in Hl. lia.
Qed.

Lemma warning_lists_unmatched_entries_witness :
  snd (select Acme.world [Acme.bar; Acme.foo] ["qux"; "foo"; "baz"] [])
    = [Console Warn [Str "⚠️  Repositories not found: qux, baz"]].
Proof.
  assert (HL : ["qux"; "foo"; "baz"] <> @nil string) by discriminate.
  assert (HN : notFound ["qux"; "foo"; "baz"] [Acme.bar; Acme.foo] <> [])
    by (vm_compute; discriminate).
  exact (proj1 (@warning_lists_unmatched_entries Acme.world [Acme.bar; Acme.foo]
                  ["qux"; "foo"; "baz"] [] HL HN)).
Defined.

(** C5, as the claim has it, fails: a name given twice that matches no
    repository is in the warning twice. *)
Lemma warning_repeats_repeated_name :
  snd (select Acme.world [Acme.bar; Acme.foo] ["baz"; "baz"] [])
    = [Console Warn [Str "⚠️  Repositories not found: baz, baz"]] /\
  ~ each_listed_once ["baz"; "baz"] [Acme.bar; Acme.foo].
Proof.
  split; [reflexivity|].
  intros H. specialize (H "baz" (or_introl eq_refl)). vm_compute in H. discriminate.
Qed.

(* ===================================================================== *)
(** ** A logic of traces *)
(* ===================================================================== *)

Unset Implicit Arguments.

Section Logic.
Context {A B : Type}.

Lemma emits_ret P (a : A) : emits P (ret a).
Proof. intros h. constructor. Qed.

Lemma emits_throw P e : emits P (@throw A e).
Proof. intros h. constructor. Qed.

Lemma emits_emit (P : Event -> Prop) ev : P ev -> emits P (emit ev).
Proof. intros H h. simpl. auto. Qed.

Lemma emits_bind P (m : M A) (f : A -> M B) :
  emits P m -> (forall a, emits P (f a)) -> emits P (bind m f).
Proof.
  intros Hm Hf h. unfold bind. specialize (Hm h).
  destruct (m h) as [[a|e|c] e1]; simpl in *; trivial.
  specialize (Hf a (h ++ e1)). destruct (f a (h ++ e1)) as [r e2]. simpl in *.
  apply Forall_app. now split.
Qed.

Lemma emits_try_catch P (m : M A) (handler : JsError -> M A) :
  emits P m -> (forall e, emits P (handler e)) -> emits P (try_catch m handler).
Proof.
  intros Hm Hf h. unfold try_catch. specialize (Hm h).
  destruct (m h) as [[a|e|c] e1]; simpl in *; trivial.
  specialize (Hf e (h ++ e1)). destruct (handler e (h ++ e1)) as [r e2]. simpl in *.
  apply Forall_app. now split.
Qed.

Lemma ends_ret (V : A -> Prop) T (a : A) : V a -> ends V T (ret a).
Proof. intros H h. exact H. Qed.

Lemma ends_throw (V : A -> Prop) (T : JsError -> Prop) e : T e -> ends V T (throw e).
Proof. intros H h. exact H. Qed.

Lemma ends_bind (V : A -> Prop) (W : B -> Prop) T (m : M A) (f : A -> M B) :
  ends V T m -> (forall a, V a -> ends W T (f a)) -> ends W T (bind m f).
Proof.
  intros Hm Hf h. unfold bind. specialize (Hm h).
  destruct (m h) as [[a|e|c] e1]; simpl in *; trivial.
  specialize (Hf a Hm (h ++ e1)). destruct (f a (h ++ e1)) as [r e2]. exact Hf.
Qed.

Lemma ends_try_catch (V : A -> Prop) T U (m : M A) (handler : JsError -> M A) :
  ends V T m -> (forall e, T e -> ends V U (handler e)) -> ends V U (try_catch m handler).
Proof.
  intros Hm Hf h. unfold try_catch. specialize (Hm h).
  destruct (m h) as [[a|e|c] e1]; simpl in *; trivial.
  specialize (Hf e Hm (h ++ e1)). destruct (handler e (h ++ e1)) as [r e2]. exact Hf.
Qed.

End Logic.

Lemma emits_exec w P cmd : P (Exec cmd) -> emits P (exec w cmd).
Proof. intros H h. unfold exec. destruct (sh w h cmd); simpl; auto. Qed.

Lemma ends_exec w cmd :
  ends (fun _ => True) (fun e => exists text, e = command_failed cmd text) (exec w cmd).
Proof. intros h. unfold exec. destruct (sh w h cmd); simpl; eauto. Qed.

Lemma ends_weaken {A} (V V' : A -> Prop) (T T' : JsError -> Prop) (m : M A) :
  ends V T m -> (forall a, V a -> V' a) -> (forall e, T e -> T' e) -> ends V' T' m.
Proof.
  intros H HV HT h. specialize (H h). destruct (fst (m h)); auto.
Qed.

Ltac emits_tac :=
  repeat lazymatch goal with
    | |- emits _ (bind _ _) => apply emits_bind; [|intros ?]
    | |- emits _ (try_catch _ _) => apply emits_try_catch; [|intros ?]
    | |- emits _ (ret _) => apply emits_ret
    | |- emits _ (throw _) => apply emits_throw
    | |- emits _ (exec _ _) => apply emits_exec
    | |- emits _ (emit _) => apply emits_emit
    | |- emits _ (if ?c then _ else _) => destruct c
    | |- emits _ (match ?c with _ => _ end) => destruct c
    end.

(* ===================================================================== *)
(** ** Before the tasks *)
(* ===================================================================== *)

Lemma calm_console s args : calm (Console s args).
Proof. split; reflexivity. Qed.

Lemma validateAndGetOwner_calm w : emits calm (validateAndGetOwner w).
Proof.
  unfold validateAndGetOwner, getCurrentUser, console_error.
  emits_tac; try apply calm_console. split; reflexivity.
Qed.

Lemma getRepositories_calm w owner : emits calm (getRepositories w owner).
Proof.
  unfold getRepositories, parse, console_error.
  emits_tac; try apply calm_console. split; reflexivity.
Qed.

Lemma select_calm w all names : emits calm (select w all names).
Proof.
  unfold select, console_warn.
  emits_tac; try apply calm_console.
  intros h. unfold selectRepositories.
  destruct (checkbox w _); simpl; repeat constructor.
Qed.

Lemma chosen_calm w names : emits calm (chosen w names).
Proof.
  unfold chosen, console_log.
  emits_tac; try apply calm_console.
  - apply validateAndGetOwner_calm.
  - apply getRepositories_calm.
  - apply select_calm.
Qed.

(* ===================================================================== *)
(** ** The Task Runner *)
(* ===================================================================== *)

Ltac ends_tac :=
  repeat lazymatch goal with
    | |- ends _ _ (bind _ _) => eapply ends_bind; [|intros ? ?]
    | |- ends _ _ (ret _) => apply ends_ret
    | |- ends _ _ (throw _) => apply ends_throw
    | |- ends _ _ (if ?c then _ else _) => destruct c eqn:?
    end.

Lemma createBranch_emits w owner b r :
  emits (branch_command owner b r) (createBranch w owner (name r) b).
Proof.
  unfold createBranch. emits_tac; eexists; (split; [reflexivity|]).
  - left; reflexivity.
  - right; left; eexists; reflexivity.
  - right; right; eexists; reflexivity.
Qed.

Lemma task_emits w owner b r : emits (branch_command owner b r) (task w owner b r).
Proof.
  unfold task. emits_tac. apply createBranch_emits.
Qed.

Lemma ends_exec_failure w cmd : ends (fun _ => True) exec_failure (exec w cmd).
Proof.
  eapply ends_weaken; [apply ends_exec | auto |].
  intros e [text ->]. now exists cmd, text.
Qed.

Lemma createBranch_ends w owner repoName b :
  ends (fun _ => True)
       (fun e => e = Error "Branch already exists" \/ exec_failure e)
       (createBranch w owner repoName b).
Proof.
  unfold createBranch.
  eapply ends_try_catch with (T := exec_failure).
  - ends_tac; try apply ends_exec_failure; trivial.
  - intros e He. ends_tac; auto.
Qed.

Lemma task_ends w owner b r :
  ends (fun _ => True) (task_error w) (task w owner b r).
Proof.
  unfold task. eapply ends_try_catch; [apply createBranch_ends|].
  intros e He. ends_tac.
  - now left.
  - destruct He as [->|He]; [discriminate | now right].
Qed.

Lemma task_error_not_cancel w err :
  task_error w err -> (message err =? "Prompt was cancelled") = false.
Proof.
  intros [->|[cmd [text ->]]].
  - unfold chalk. destruct (colors w); reflexivity.
  - reflexivity.
Qed.

(** The run of a list of tasks, one step at a time. *)
Lemma Listr_run_cons title (job : M unit) rest h :
  Listr_run ((title, job) :: rest) h =
    match job h with
    | (Val _, e1) =>
        let (r, e2) := Listr_run rest ((h ++ e1) ++ [TaskState title Completed]) in
        (r, e1 ++ TaskState title Completed :: e2)
    | (Throw err, e1) => (Throw err, e1 ++ [TaskState title (Failed (message err))])
    | (Exit c, e1) => (Exit c, e1)
    end.
Proof.
  cbn [Listr_run]. unfold bind, try_catch, emit, throw.
  destruct (job h) as [[[]|err|c] e1]; cbn; trivial.
  destruct (Listr_run rest ((h ++ e1) ++ [TaskState title Completed])) as [r e2].
  reflexivity.
Qed.

Lemma tasks_of_cons w owner b r rest :
  tasks_of w owner b (r :: rest) =
  (task_title w r, task w owner b r) :: tasks_of w owner b rest.
Proof. reflexivity. Qed.

Lemma Listr_run_nil h : Listr_run [] h = (Val tt, []).
Proof. reflexivity. Qed.

Lemma history_step {A} (h e1 : list A) (ev : A) (e2 : list A) :
  ((h ++ e1) ++ [ev]) ++ e2 = h ++ e1 ++ ev :: e2.
Proof. now rewrite <- !app_assoc. Qed.

(** The tasks after the first one that fails are not started. *)
Lemma Listr_run_first_failure w owner b before r after h e1 e2 err :
  Listr_run (tasks_of w owner b before) h = (Val tt, e1) ->
  task w owner b r (h ++ e1) = (Throw err, e2) ->
  Listr_run (tasks_of w owner b (before ++ r :: after)) h =
    (Throw err, e1 ++ e2 ++ [TaskState (task_title w r) (Failed (message err))]).
Proof.
  revert h e1. induction before as [|x before IH]; intros h e1 H1 H2.
  - rewrite Listr_run_nil in H1. injection H1 as <-.
    rewrite app_nil_r in H2. cbn [app]. rewrite tasks_of_cons, Listr_run_cons, H2.
    reflexivity.
  - cbn [app]. rewrite tasks_of_cons, Listr_run_cons in *.
    destruct (task w owner b x h) as [[[]|ex|c] e0]; try discriminate.
    destruct (Listr_run (tasks_of w owner b before) _) as [r' e'] eqn:E.
    injection H1 as -> <-.
    rewrite <- history_step in H2.
    rewrite (IH _ _ E H2). now rewrite <- app_assoc.
Qed.

Lemma Listr_run_completed w owner b sel h e :
  Listr_run (tasks_of w owner b sel) h = (Val tt, e) ->
  forall r, In r sel -> In (TaskState (task_title w r) Completed) e.
Proof.
  revert h e. induction sel as [|x sel IH]; intros h e H r Hr; [easy|].
  rewrite tasks_of_cons, Listr_run_cons in H.
  destruct (task w owner b x h) as [[[]|ex|c] e0]; try discriminate.
  destruct (Listr_run (tasks_of w owner b sel) _) as [r' e'] eqn:E.
  injection H as -> <-. apply in_or_app. right.
  destruct Hr as [->|Hr]; [now left | right; eauto].
Qed.

Lemma branch_command_not_failed owner b r ev : branch_command owner b r ev -> not_failed ev.
Proof. intros [cmd [-> _]] t m. discriminate. Qed.

Lemma Listr_run_ends w owner b sel h :
  match Listr_run (tasks_of w owner b sel) h with
  | (Val _, e) => Forall not_failed e
  | (Throw err, _) => task_error w err
  | (Exit _, _) => False
  end.
Proof.
  revert h. induction sel as [|x sel IH]; intros h.
  - rewrite Listr_run_nil. constructor.
  - rewrite tasks_of_cons, Listr_run_cons.
    pose proof (task_ends w owner b x h) as He.
    pose proof (task_emits w owner b x h) as Hev.
    destruct (task w owner b x h) as [[[]|ex|c] e0]; simpl in He, Hev; trivial.
    specialize (IH ((h ++ e0) ++ [TaskState (task_title w x) Completed])).
    destruct (Listr_run (tasks_of w owner b sel) _) as [[[]|err|c] e'];
      trivial.
    apply Forall_app. split.
    + eapply Forall_impl; [|exact Hev]. apply branch_command_not_failed.
    + constructor; trivial. intros t m. discriminate.
Qed.

Lemma Listr_run_emits w owner b sel :
  emits (fun ev => is_task_state ev = true \/
                   exists r, In r sel /\ branch_command owner b r ev)
        (Listr_run (tasks_of w owner b sel)).
Proof.
  intros h. revert h. induction sel as [|x sel IH]; intros h.
  - rewrite Listr_run_nil. constructor.
  - rewrite tasks_of_cons, Listr_run_cons.
    pose proof (task_emits w owner b x h) as Hev.
    assert (Hev' : Forall (fun ev => is_task_state ev = true \/
                   exists r, In r (x :: sel) /\ branch_command owner b r ev)
                     (snd (task w owner b x h))).
    { eapply Forall_impl; [|exact Hev]. intros ev H. right. exists x. split; [now left|trivial]. }
    destruct (task w owner b x h) as [[[]|ex|c] e0]; simpl in Hev'; trivial.
    + specialize (IH ((h ++ e0) ++ [TaskState (task_title w x) Completed])).
      destruct (Listr_run (tasks_of w owner b sel) _) as [r' e']. simpl in *.
      apply Forall_app. split; trivial. constructor; [now left|].
      eapply Forall_impl; [|exact IH]. intros ev [H|[r [Hr H]]]; [now left|].
      right. exists r. split; [now right | trivial].
    + simpl. apply Forall_app. split; trivial. constructor; [now left | constructor].
Qed.

(* ===================================================================== *)
(** ** The run *)
(* ===================================================================== *)

Lemma process_selected_nil w owner b h :
  process_selected w owner b [] h = (Val tt, [no_selection_line w]).
Proof. reflexivity. Qed.

Lemma process_selected_cons w owner b r sel h :
  let n := List.length (r :: sel) in
  process_selected w owner b (r :: sel) h =
    match Listr_run (tasks_of w owner b (r :: sel)) (h ++ [banner_line w b n]) with
    | (Val _, e) => (Val tt, banner_line w b n :: e ++ [done_line w])
    | (Throw err, e) => (Throw err, banner_line w b n :: e)
    | (Exit c, e) => (Exit c, banner_line w b n :: e)
    end.
Proof.
  intros n. unfold process_selected.
  change (List.length (r :: sel) =? 0)%nat with false. cbv iota.
  unfold bind at 1. unfold console_log at 1. unfold emit at 1. fold n.
  change (Console Log [Str (creating_banner w b n)]) with (banner_line w b n).
  unfold bind, console_log, emit.
  destruct (Listr_run (tasks_of w owner b (r :: sel)) (h ++ [banner_line w b n]))
    as [[[]|err|c] e]; reflexivity.
Qed.

Lemma run_body_chosen w b names h :
  run_body w b names h =
    match chosen w names h with
    | (Val (owner, _, sel), e1) =>
        let (r, e2) := process_selected w owner b sel (h ++ e1) in (r, e1 ++ e2)
    | (Throw e, e1) => (Throw e, e1)
    | (Exit c, e1) => (Exit c, e1)
    end.
Proof.
  unfold run_body, chosen. unfold bind, console_log, emit, ret.
  destruct (validateAndGetOwner w h) as [[owner|e|c] e1]; trivial.
  destruct (getRepositories w owner _) as [[allRepos|e|c] e2]; trivial.
  destruct (select w allRepos names _) as [[sel|e|c] e3]; trivial.
  rewrite app_nil_r, !app_assoc.
  destruct (process_selected w owner b sel _) as [r e4].
  now rewrite !app_assoc.
Qed.

Lemma run_unfold w b names h :
  run w b names h =
    match run_body w b names h with
    | (Throw err, e1) =>
        if message err =? "Prompt was cancelled"
        then (Exit 0, e1 ++ [cancelled_line w])
        else (Exit 1, e1 ++ [error_line w err])
    | other => other
    end.
Proof.
  unfold run, try_catch.
  destruct (run_body w b names h) as [[[]|err|c] e1]; trivial.
  unfold bind, console_log, console_error, emit, process_exit, ret.
  destruct (message err =? "Prompt was cancelled"); reflexivity.
Qed.

(** What [run] makes of the selection. *)
Lemma run_chosen w b names h owner allRepos sel e1 :
  chosen w names h = (Val (owner, allRepos, sel), e1) ->
  run w b names h =
    match process_selected w owner b sel (h ++ e1) with
    | (Val _, e2) => (Val tt, e1 ++ e2)
    | (Throw err, e2) =>
        if message err =? "Prompt was cancelled"
        then (Exit 0, (e1 ++ e2) ++ [cancelled_line w])
        else (Exit 1, (e1 ++ e2) ++ [error_line w err])
    | (Exit c, e2) => (Exit c, e1 ++ e2)
    end.
Proof.
  intros H. rewrite run_unfold, run_body_chosen, H.
  destruct (process_selected w owner b sel (h ++ e1)) as [[[]|err|c] e2]; reflexivity.
Qed.

Lemma run_not_chosen w b names h :
  (forall x e1, chosen w names h <> (Val x, e1)) ->
  Forall calm (snd (run w b names h)).
Proof.
  intros H. rewrite run_unfold, run_body_chosen.
  pose proof (chosen_calm w names h) as C.
  destruct (chosen w names h) as [[x|err|c] e1]; simpl in C.
  - now elim (H x e1).
  - destruct (message err =? "Prompt was cancelled"); simpl;
      apply Forall_app; split; trivial; repeat constructor.
  - exact C.
Qed.

Lemma calm_not_failed ev : calm ev -> not_failed ev.
Proof. intros [_ H] t m ->. discriminate. Qed.

(** A run of the tasks that throws ends with the record of the failure;
    there is no other record of a failure. *)
Lemma Listr_run_failure w owner b sel h err evs :
  Listr_run (tasks_of w owner b sel) h = (Throw err, evs) ->
  exists e repo,
    In repo sel /\
    evs = e ++ [TaskState (task_title w repo) (Failed (message err))] /\
    Forall not_failed e /\
    task_error w err.
Proof.
  revert h evs. induction sel as [|x sel IH]; intros h evs H.
  - rewrite Listr_run_nil in H. discriminate.
  - rewrite tasks_of_cons, Listr_run_cons in H.
    pose proof (task_ends w owner b x h) as He.
    pose proof (task_emits w owner b x h) as Hev.
    destruct (task w owner b x h) as [[[]|ex|c] e0]; cbn [fst snd] in He, Hev;
      [| |discriminate].
    + destruct (Listr_run (tasks_of w owner b sel) _) as [r' e'] eqn:E.
      injection H as -> <-.
      destruct (IH _ _ E) as [e [repo [Hin [-> [Hnf Ht]]]]].
      exists (e0 ++ TaskState (task_title w x) Completed :: e), repo.
      split; [now right|]. split; [now rewrite <- app_assoc|]. split; trivial.
      apply Forall_app. split.
      * eapply Forall_impl; [|exact Hev]. apply branch_command_not_failed.
      * constructor; trivial. intros t m. discriminate.
    + injection H as <- <-. exists e0, x.
      split; [now left|]. split; trivial. split; trivial.
      eapply Forall_impl; [|exact Hev]. apply branch_command_not_failed.
Qed.

(** Either no task is recorded as failed in a run, or the run ends with
    the record of the one failure and the line that prints its error. *)
Lemma run_failure_shape w b names h :
  Forall not_failed (snd (run w b names h)) \/
  exists owner allRepos sel e1 before repo err,
    chosen w names h = (Val (owner, allRepos, sel), e1) /\
    In repo sel /\
    run w b names h =
      (Exit 1,
       before ++ [TaskState (task_title w repo) (Failed (message err));
                  error_line w err]) /\
    Forall not_failed before /\
    task_error w err.
Proof.
  destruct (chosen w names h) as [[[[owner allRepos] sel]|err|c] e1] eqn:C.
  - pose proof (chosen_calm w names h) as Hc. rewrite C in Hc. cbn [snd] in Hc.
    assert (N1 : Forall not_failed e1)
      by (eapply Forall_impl; [|exact Hc]; apply calm_not_failed).
    rewrite (run_chosen w b names h _ _ _ _ C).
    destruct sel as [|r sel].
    + left. rewrite process_selected_nil. cbn [snd].
      apply Forall_app. split; trivial. constructor; [|constructor].
      intros t m. discriminate.
    + rewrite process_selected_cons.
      pose proof (Listr_run_ends w owner b (r :: sel)
                    ((h ++ e1) ++ [banner_line w b (List.length (r :: sel))])) as L.
      destruct (Listr_run _ _) as [[[]|err|c] e2] eqn:E; [| |now elim L].
      * left. cbn [snd]. apply Forall_app. split; trivial.
        constructor; [intros t m; discriminate|].
        apply Forall_app. split; trivial. constructor; [|constructor].
        intros t m. discriminate.
      * right. destruct (Listr_run_failure _ _ _ _ _ _ _ E)
          as [e [repo [Hin [-> [Hnf Ht]]]]].
        exists owner, allRepos, (r :: sel), e1.
        exists (e1 ++ banner_line w b (List.length (r :: sel)) :: e), repo, err.
        split; trivial. split; trivial.
        rewrite (task_error_not_cancel _ _ Ht).
        split; [|split; trivial].
        -- f_equal. rewrite <- !app_assoc. cbn [app]. now rewrite <- app_assoc.
        -- apply Forall_app. split; trivial.
           constructor; trivial. intros t m. discriminate.
  - left. eapply Forall_impl; [apply calm_not_failed|].
    apply run_not_chosen. intros x e. rewrite C. discriminate.
  - left. eapply Forall_impl; [apply calm_not_failed|].
    apply run_not_chosen. intros x e. rewrite C. discriminate.
Qed.

(** C3, as the program has it.  When the task of a repository is recorded
    as failed in a run, that repository is one of the selected ones, the
    failure is "Branch already exists" or the failure of a command, and it
    is the only failure recorded; the record shows the message of the
    error, the run prints that same error after "Error:" right after the
    record, and these are its last two events; the process exits with
    status 1. *)
Theorem failed_task_exits_1 w b names h title msg :
  In (TaskState title (Failed msg)) (snd (run w b names h)) ->
  fst (run w b names h) = Exit 1 /\
  exit_code (fst (run w b names h)) = 1%Z /\
  exists before repo err,
    snd (run w b names h) =
      before ++ [TaskState title (Failed msg);
                 Console Err [Str (chalk w red "Error:"); Obj err]] /\
    title = ("Creating branch in " ++ chalk w cyan (name repo))%string /\
    message err = msg /\
    (err = Error (chalk w yellow "Branch already exists") \/
     exists cmd text, err = command_failed cmd text) /\
    Forall not_failed before /\
    exists owner allRepos sel e1,
      chosen w names h = (Val (owner, allRepos, sel), e1) /\ In repo sel.
Proof.
  intros Hin.
  destruct (run_failure_shape w b names h)
    as [N|[owner [allRepos [sel [e1 [before [repo [err [C [Hr [R [Hnf Ht]]]]]]]]]]]].
  - exfalso. rewrite Forall_forall in N. now apply (N _ Hin title msg).
  - rewrite R in *. cbn [fst snd exit_code] in *.
    apply in_app_or in Hin. destruct Hin as [Hin|[Hin|[Hin|[]]]].
    + exfalso. rewrite Forall_forall in Hnf. now apply (Hnf _ Hin title msg).
    + injection Hin as <- <-.
      split; trivial. split; trivial.
      exists before, repo, err. repeat split; trivial.
      exists owner, allRepos, sel, e1. now split.
    + discriminate Hin.
Qed.

Lemma calm_no_calls evs : Forall calm evs -> branch_creation_calls evs = [].
Proof.
  induction 1 as [|ev evs [H _] _ IH]; trivial.
  unfold branch_creation_calls in *. simpl. now rewrite H.
Qed.

Lemma branch_command_is_call owner b r ev :
  branch_command owner b r ev -> is_branch_creation_call ev = true.
Proof.
  intros [cmd [-> [->|[[br ->]|[sha ->]]]]];
    unfold is_branch_creation_call, view_command, sha_command, ref_command;
    rewrite prefix_append; auto using orb_true_r.
Qed.

(** C9. When the selection comes out empty, the run prints "No
    repositories selected" and returns, so that the process ends with
    status 0, and no command of [createBranch] has been run. *)
Theorem empty_selection_exits_0 w b names h owner allRepos e1 :
  chosen w names h = (Val (owner, allRepos, []), e1) ->
  run w b names h = (Val tt, e1 ++ [no_selection_line w]) /\
  exit_code (fst (run w b names h)) = 0%Z /\
  branch_creation_calls (snd (run w b names h)) = [].
Proof.
  intros C. rewrite (run_chosen w b names h _ _ _ _ C), process_selected_nil.
  repeat split. simpl. apply calm_no_calls.
  pose proof (chosen_calm w names h) as Hc. rewrite C in Hc.
  apply Forall_app. split; [exact Hc | repeat constructor].
Qed.

Lemma empty_selection_exits_0_witness :
  exit_code (fst (run Acme.world "x" [] [])) = 0%Z /\
  branch_creation_calls (snd (run Acme.world "x" [] [])) = [].
Proof.
  refine (proj2 (empty_selection_exits_0 Acme.world "x" [] [] _ _ _ _)).
  vm_compute. reflexivity.
Defined.

Lemma ticked_In {A} (checked : list bool) (values : list A) x :
  In x (ticked checked values) -> In x values.
Proof.
  unfold ticked. rewrite in_map_iff. intros [[c y] [<- H]].
  apply filter_In in H. destruct H as [H _]. now apply in_combine_r in H.
Qed.

Lemma select_incl w allRepos names h sel e :
  select w allRepos names h = (Val sel, e) -> incl sel allRepos.
Proof.
  destruct names as [|n names].
  - unfold select, selectRepositories. cbn [List.length Nat.ltb Nat.leb].
    destruct (checkbox w _); intros [= <- _].
    intros x. apply ticked_In.
  - rewrite (@select_named w allRepos (n :: names) h) by discriminate.
    intros [= <- _]. apply incl_filter.
Qed.

Lemma chosen_inv w names h owner allRepos sel e1 :
  chosen w names h = (Val (owner, allRepos, sel), e1) ->
  exists eo e2 e3,
    validateAndGetOwner w h = (Val owner, eo) /\
    getRepositories w owner ((h ++ eo) ++ [fetching_line w owner]) = (Val allRepos, e2) /\
    select w allRepos names (((h ++ eo) ++ [fetching_line w owner]) ++ e2) = (Val sel, e3) /\
    e1 = eo ++ fetching_line w owner :: e2 ++ e3.
Proof.
  unfold chosen. unfold bind, console_log, emit, ret.
  destruct (validateAndGetOwner w h) as [[o|e|c] eo]; try discriminate.
  fold (fetching_line w o).
  destruct (getRepositories w o _) as [[all|e|c] e2] eqn:G; try discriminate.
  destruct (select w all names _) as [[s|e|c] e3] eqn:S; try discriminate.
  intros [= <- <- <- <-]. exists eo, e2, e3. rewrite app_nil_r. auto.
Qed.

Lemma process_selected_emits w owner b sel :
  emits (for_selected owner b sel) (process_selected w owner b sel).
Proof.
  unfold process_selected, console_log.
  destruct (List.length sel =? 0)%nat.
  - apply emits_emit. now left.
  - emits_tac; try (now left).
    intros h. eapply Forall_impl; [|apply Listr_run_emits].
    intros ev [H|H]; [left | now right].
    destruct ev; try discriminate; reflexivity.
Qed.

Lemma run_emits w b names h owner allRepos sel e1 :
  chosen w names h = (Val (owner, allRepos, sel), e1) ->
  Forall (for_selected owner b sel) (snd (run w b names h)).
Proof.
  intros C. rewrite (run_chosen w b names h _ _ _ _ C).
  pose proof (chosen_calm w names h) as Hc. rewrite C in Hc. simpl in Hc.
  assert (H1 : Forall (for_selected owner b sel) e1).
  { eapply Forall_impl; [|exact Hc]. intros ev [H _]. now left. }
  pose proof (process_selected_emits w owner b sel (h ++ e1)) as H2.
  destruct (process_selected w owner b sel (h ++ e1)) as [[[]|err|c] e2]; simpl in H2.
  - apply Forall_app; now split.
  - destruct (message err =? "Prompt was cancelled"); simpl;
      repeat (apply Forall_app; split); trivial; repeat constructor; now left.
  - apply Forall_app; now split.
Qed.

Lemma append_nil_r (s : string) : (s ++ "")%string = s.
Proof. induction s as [|c s IH]; simpl; [reflexivity | now rewrite IH]. Qed.

(** Each element of a joined array is in the text. *)
Lemma join_contains (sep n : string) (l : list string) :
  In n l -> exists before after, (Js.join sep l = before ++ n ++ after)%string.
Proof.
  induction l as [|x rest IH]; [easy|].
  intros [->|Hin].
  - exists "". destruct rest as [|y rest].
    + exists "". cbn [Js.join append]. now rewrite append_nil_r.
    + exists (sep ++ Js.join sep (y :: rest))%string. reflexivity.
  - destruct (IH Hin) as [before [after E]].
    destruct rest as [|y rest]; [easy|].
    exists (x ++ sep ++ before)%string, after.
    change (Js.join sep (x :: y :: rest))
      with (x ++ sep ++ Js.join sep (y :: rest))%string.
    rewrite E. now rewrite !append_assoc.
Qed.

(** C8. The selection is taken from what the Lister returned for the
    owner, and every command of [createBranch] the run issues is for a
    selected, hence listed, repository.  A name given on the command line
    that no listed repository has is reported: the run prints a warning
    whose text is "⚠️  Repositories not found: " followed by the names not
    found, and that name is among them.  The selection by names never
    throws, and the run returns normally when the branch is created in
    every selected repository. *)
Theorem acted_upon_are_listed w b names h owner allRepos sel e1 :
  chosen w names h = (Val (owner, allRepos, sel), e1) ->
  (exists h', fst (getRepositories w owner h') = Val allRepos) /\
  incl sel allRepos /\
  (forall ev, In ev (branch_creation_calls (snd (run w b names h))) ->
              exists r, In r sel /\ In r allRepos /\ branch_command owner b r ev) /\
  (names <> [] ->
   sel = named names allRepos /\
   forall n, In n names -> (forall r, In r allRepos -> name r <> n) ->
             In n (notFound names allRepos) /\
             In (Console Warn [Str (not_found_warning w (notFound names allRepos))]) e1 /\
             In (Console Warn
                   [Str (chalk w yellow
                           ("⚠️  Repositories not found: " ++
                            Js.join ", " (notFound names allRepos)))])
                (snd (run w b names h)) /\
             exists before after,
               (Js.join ", " (notFound names allRepos) = before ++ n ++ after)%string) /\
  (forall all h', names <> [] -> fst (select w all names h') = Val (named names all)) /\
  (fst (process_selected w owner b sel (h ++ e1)) = Val tt ->
   fst (run w b names h) = Val tt).
Proof.
  intros C.
  destruct (chosen_inv w names h _ _ _ _ C) as [eo [e2 [e3 [Ho [Hg [Hs ->]]]]]].
  pose proof (select_incl _ _ _ _ _ _ Hs) as Hincl.
  split; [eexists; now rewrite Hg|].
  split; [exact Hincl|].
  split; [|split; [|split]].
  - intros ev Hev. apply filter_In in Hev. destruct Hev as [Hin Hcall].
    pose proof (run_emits w b names h _ _ _ _ C) as He.
    rewrite Forall_forall in He. destruct (He _ Hin) as [F|[r [Hr Hb]]]; [congruence|].
    exists r. auto.
  - intros Hn. rewrite (@select_named w allRepos names _ Hn) in Hs.
    injection Hs as <- <-. split; trivial.
    intros n Hin Hmiss.
    assert (I : In n (notFound names allRepos)) by (apply notFound_spec; auto).
    split; trivial.
    assert (W : In (Console Warn [Str (not_found_warning w (notFound names allRepos))])
                   (eo ++ fetching_line w owner :: e2 ++
                    (if (0 <? List.length (notFound names allRepos))%nat
                     then [Console Warn
                             [Str (not_found_warning w (notFound names allRepos))]]
                     else []))).
    { destruct (notFound names allRepos) as [|m ms] eqn:E; [easy|].
      cbn [List.length Nat.ltb Nat.leb].
      apply in_or_app. right. right. apply in_or_app. right. now left. }
    split; [exact W|]. split; [|now apply join_contains].
    rewrite (run_chosen w b names h _ _ _ _ C).
    destruct (process_selected w owner b _ _) as [[[]|err|c] e4];
      [ | destruct (message err =? "Prompt was cancelled") | ]; cbn [snd];
      apply in_or_app; left; first [exact W | apply in_or_app; left; exact W].
  - intros all h' Hn. now rewrite (@select_named w all names h' Hn).
  - intros Hp. rewrite (run_chosen w b names h _ _ _ _ C).
    destruct (process_selected w owner b sel _) as [[[]|err|c] e4]; try discriminate.
    reflexivity.
Qed.

Lemma acted_upon_are_listed_witness :
  incl [Acme.foo] [Acme.bar; Acme.foo; Acme.new] /\
  In (Console Warn [Str "⚠️  Repositories not found: baz"])
     (snd (run Acme.world "x" ["foo"; "baz"] [])) /\
  fst (run Acme.world "x" ["foo"; "baz"] []) = Val tt.
Proof.
  destruct (acted_upon_are_listed Acme.world "x" ["foo"; "baz"] []
              "acme" [Acme.bar; Acme.foo; Acme.new] [Acme.foo] _ eq_refl)
    as [_ [I [_ [N [_ R]]]]].
  split; [exact I|]. split; [|apply R; reflexivity].
  assert (Hn : ["foo"; "baz"] <> @nil string) by discriminate.
  destruct (N Hn) as [_ N'].
  assert (Hb : forall r, In r [Acme.bar; Acme.foo; Acme.new] -> name r <> "baz")
    by (intros r [<-|[<-|[<-|[]]]]; discriminate).
  exact (proj1 (proj2 (proj2 (N' "baz" (or_intror (or_introl eq_refl)) Hb)))).
Defined.

(** C1, as the program has it.  The tasks run one after the other in the
    order of the chosen list.  When the repositories before [r] have all
    been completed and the task of [r] fails, with "Branch already exists"
    or with the failure of a command, the run of the tasks ends there with
    that error: what was done and recorded for the repositories before [r]
    stands, each of them is recorded as completed, the commands of [r] and
    its failure follow, and nothing is run or recorded for the repositories
    after [r], whatever they are. *)
Theorem first_failure_ends_the_tasks w owner b before r after h e1 e2 err :
  Listr_run (tasks_of w owner b before) h = (Val tt, e1) ->
  task w owner b r (h ++ e1) = (Throw err, e2) ->
  Listr_run (tasks_of w owner b (before ++ r :: after)) h =
    (Throw err, e1 ++ e2 ++ [TaskState (task_title w r) (Failed (message err))]) /\
  (forall r', In r' before -> In (TaskState (task_title w r') Completed) e1) /\
  Forall (branch_command owner b r) e2 /\
  task_error w err.
Proof.
  intros H1 H2. split; [now apply Listr_run_first_failure|].
  split; [now apply (Listr_run_completed w owner b before h)|].
  pose proof (task_emits w owner b r (h ++ e1)) as He.
  pose proof (task_ends w owner b r (h ++ e1)) as Ht.
  rewrite H2 in He, Ht. now split.
Qed.

Lemma first_failure_ends_the_tasks_witness :
  Listr_run (tasks_of Acme.world "acme" "x" [Acme.foo; Acme.bar; Acme.new]) [] =
    (Throw (Error "Branch already exists"),
     [Exec (view_command "acme" "foo");
      Exec (sha_command "acme" "foo" "main");
      Exec (ref_command "acme" "foo" "x" "2222222");
      TaskState "Creating branch in foo" Completed;
      Exec (view_command "acme" "bar");
      Exec (sha_command "acme" "bar" "develop");
      Exec (ref_command "acme" "bar" "x" "1111111");
      TaskState "Creating branch in bar" (Failed "Branch already exists")]).
Proof.
  exact (proj1 (first_failure_ends_the_tasks Acme.world "acme" "x"
                  [Acme.foo] Acme.bar [Acme.new] [] _ _ _ eq_refl eq_refl)).
Defined.

(** C1, as the claim has it, fails: with [bar] and [foo] chosen and the
    branch already there in [bar], the failure of [bar] is recorded and
    the run ends; no command of [createBranch] is run for [foo] and nothing
    is recorded for it, although its branch is created when [foo] is
    chosen alone. *)
Lemma failure_stops_later_repositories :
  let evs := snd (main Acme.world "x" ["bar"; "foo"] []) in
  fst (select Acme.world [Acme.bar; Acme.foo; Acme.new] ["bar"; "foo"] [])
    = Val [Acme.bar; Acme.foo] /\
  In (TaskState "Creating branch in bar" (Failed "Branch already exists")) evs /\
  (forall ev, In ev evs -> ~ branch_command "acme" "x" Acme.foo ev) /\
  (forall status, ~ In (TaskState (task_title Acme.world Acme.foo) status) evs) /\
  In (TaskState (task_title Acme.world Acme.foo) Completed)
     (snd (main Acme.world "x" ["foo"] [])).
Proof.
  vm_compute. split; [reflexivity|]. split; [tauto|]. split; [|split].
  - intros ev Hin [cmd [-> [E|[[br E]|[sha E]]]]];
      repeat (destruct Hin as [Hin|Hin];
              [first [discriminate Hin | injection Hin as <-; discriminate E]|]);
      exact Hin.
  - intros status Hin. repeat (destruct Hin as [Hin|Hin]; [discriminate Hin|]). exact Hin.
  - tauto.
Qed.

(** C3, as the claim has it, fails: the tool is there, the owner is found
    and the listing succeeds, the branch is already in [bar], and the
    process exits with status 1. *)
Lemma existing_branch_exits_1 :
  main Acme.world "x" ["bar"] [] =
    (Exit 1,
     [Exec "gh --version";
      Exec "gh api user --jq .login";
      fetching_line Acme.world "acme";
      Exec (list_command "acme");
      banner_line Acme.world "x" 1;
      Exec (view_command "acme" "bar");
      Exec (sha_command "acme" "bar" "develop");
      Exec (ref_command "acme" "bar" "x" "1111111");
      TaskState "Creating branch in bar" (Failed "Branch already exists");
      error_line Acme.world (Error "Branch already exists")]) /\
  exit_code (fst (main Acme.world "x" ["bar"] [])) <> 0%Z.
Proof.
  split; [reflexivity | vm_compute; discriminate].
Qed.

Lemma failed_task_exits_1_witness :
  fst (run Acme.world "x" ["bar"] []) = Exit 1 /\
  exists before err,
    snd (run Acme.world "x" ["bar"] []) =
      before ++ [TaskState "Creating branch in bar" (Failed "Branch already exists");
                 Console Err [Str "Error:"; Obj err]] /\
    message err = "Branch already exists".
Proof.
  assert (Hin : In (TaskState "Creating branch in bar" (Failed "Branch already exists"))
                   (snd (run Acme.world "x" ["bar"] [])))
    by (vm_compute; tauto).
  destruct (failed_task_exits_1 Acme.world "x" ["bar"] [] _ _ Hin)
    as [E [_ [before [repo [err [S [_ [M _]]]]]]]].
  split; [exact E|]. exists before, err. split; [exact S | exact M].
Defined.

(* ===================================================================== *)
(** ** More of the logic of traces *)
(* ===================================================================== *)

Lemma emits_process_exit {A} P c : emits P (@process_exit A c).
Proof. intros h. constructor. Qed.

Lemma emits_Listr_run (P : Event -> Prop) (tasks : list (string * M unit)) :
  (forall title job, In (title, job) tasks -> emits P job) ->
  (forall title state, P (TaskState title state)) ->
  emits P (Listr_run tasks).
Proof.
  intros Hjobs Hstate. induction tasks as [|[title job] rest IH].
  - apply emits_ret.
  - cbn [Listr_run].
    apply emits_bind.
    + apply emits_try_catch; [apply (Hjobs title job); now left|].
      intros e. apply emits_bind; [now apply emits_emit | intros _; apply emits_throw].
    + intros _. apply emits_bind; [now apply emits_emit|].
      intros _. apply IH. intros t j Hin. apply (Hjobs t j). now right.
Qed.

Lemma emits_weaken {A} (P Q : Event -> Prop) (m : M A) :
  emits P m -> (forall ev, P ev -> Q ev) -> emits Q m.
Proof. intros H HPQ h. eapply Forall_impl; [exact HPQ | apply H]. Qed.

Lemma emits_selectRepositories (P : Event -> Prop) w repos :
  P (Prompt (map choice_label repos)) -> emits P (selectRepositories w repos).
Proof.
  intros H h. unfold selectRepositories.
  destruct (checkbox w _); simpl; auto.
Qed.

Ltac emits_more :=
  repeat lazymatch goal with
    | |- emits _ (bind _ _) => apply emits_bind; [|intros ?]
    | |- emits _ (try_catch _ _) => apply emits_try_catch; [|intros ?]
    | |- emits _ (ret _) => apply emits_ret
    | |- emits _ (throw _) => apply emits_throw
    | |- emits _ (process_exit _) => apply emits_process_exit
    | |- emits _ (exec _ _) => apply emits_exec
    | |- emits _ (emit _) => apply emits_emit
    | |- emits _ (console_log _) => apply emits_emit
    | |- emits _ (console_warn _) => apply emits_emit
    | |- emits _ (console_error _) => apply emits_emit
    | |- emits _ (selectRepositories _ _) => apply emits_selectRepositories
    | |- emits _ (if ?c then _ else _) => destruct c
    | |- emits _ (match ?c with _ => _ end) => destruct c
    end.

Lemma truthy_false (s : string) : Js.truthy s = false -> s = "".
Proof.
  unfold Js.truthy. intros H. apply negb_false_iff in H. now apply String.eqb_eq.
Qed.

Lemma truthy_true (s : string) : s <> "" -> Js.truthy s = true.
Proof.
  unfold Js.truthy. intros H. apply negb_true_iff. now apply String.eqb_neq.
Qed.

(** What a whole run emits, from what its commands, its lines, its
    records and its prompt are. *)
Lemma run_emits_all (P : Event -> Prop) w b names :
  (GITHUB_ORG w = "" -> P (Exec login_command)) ->
  (forall owner, P (Exec (list_command owner))) ->
  (forall owner repo ev, branch_command owner b repo ev -> P ev) ->
  (forall args, P (Console Log args)) ->
  (forall args, P (Console Err args)) ->
  (names <> [] -> forall args, P (Console Warn args)) ->
  (forall title state, P (TaskState title state)) ->
  (names = [] -> forall choices, P (Prompt choices)) ->
  emits P (run w b names).
Proof.
  intros HL HR HB HC HE HW HT HP.
  assert (Hown : emits P (validateAndGetOwner w)).
  { unfold validateAndGetOwner, getCurrentUser.
    destruct (Js.truthy (GITHUB_ORG w)) eqn:E; emits_more; auto.
    apply HL. now apply truthy_false. }
  assert (Hsel : forall allRepos, emits P (select w allRepos names)).
  { intros allRepos. destruct names as [|n names].
    - unfold select. cbn [List.length Nat.ltb Nat.leb].
      apply emits_selectRepositories. now apply HP.
    - intros h. rewrite (@select_named w allRepos (n :: names) h) by discriminate.
      cbn [snd]. destruct (0 <? _)%nat; repeat constructor. now apply HW. }
  unfold run, run_body, process_selected, getRepositories, parse.
  emits_more; auto.
  apply emits_Listr_run; trivial.
  intros title job Hin. unfold tasks_of in Hin. apply in_map_iff in Hin.
  destruct Hin as [repo [[= <- <-] _]].
  eapply emits_weaken; [apply task_emits | apply HB].
Qed.

Lemma stays_ret {A} (a : A) : stays (ret a).
Proof. intros h. exact I. Qed.

Lemma stays_throw {A} e : stays (@throw A e).
Proof. intros h. exact I. Qed.

Lemma stays_emit ev : stays (emit ev).
Proof. intros h. exact I. Qed.

Lemma stays_bind {A B} (m : M A) (f : A -> M B) :
  stays m -> (forall a, stays (f a)) -> stays (bind m f).
Proof. intros Hm Hf. eapply ends_bind; [exact Hm | intros a _; apply Hf]. Qed.

Lemma stays_try_catch {A} (m : M A) (handler : JsError -> M A) :
  stays m -> (forall e, stays (handler e)) -> stays (try_catch m handler).
Proof. intros Hm Hf. eapply ends_try_catch; [exact Hm | intros e _; apply Hf]. Qed.

Lemma stays_exec w cmd : stays (exec w cmd).
Proof. eapply ends_weaken; [apply ends_exec | trivial | trivial]. Qed.

Lemma stays_selectRepositories w repos : stays (selectRepositories w repos).
Proof. intros h. unfold selectRepositories. destruct (checkbox w _); exact I. Qed.

Lemma stays_Listr_run w owner b sel : stays (Listr_run (tasks_of w owner b sel)).
Proof.
  intros h. pose proof (Listr_run_ends w owner b sel h) as H.
  destruct (Listr_run _ h) as [[[]|err|c] e]; simpl; trivial.
Qed.

Ltac stays_tac :=
  repeat lazymatch goal with
    | |- stays (bind _ _) => apply stays_bind; [|intros ?]
    | |- stays (try_catch _ _) => apply stays_try_catch; [|intros ?]
    | |- stays (ret _) => apply stays_ret
    | |- stays (throw _) => apply stays_throw
    | |- stays (exec _ _) => apply stays_exec
    | |- stays (emit _) => apply stays_emit
    | |- stays (console_log _) => apply stays_emit
    | |- stays (console_warn _) => apply stays_emit
    | |- stays (console_error _) => apply stays_emit
    | |- stays (selectRepositories _ _) => apply stays_selectRepositories
    | |- stays (Listr_run (tasks_of _ _ _ _)) => apply stays_Listr_run
    | |- stays (if ?c then _ else _) => destruct c
    | |- stays (match ?c with _ => _ end) => destruct c
    end.

Lemma stays_run_body w b names : stays (run_body w b names).
Proof.
  unfold run_body, process_selected, select, validateAndGetOwner, getCurrentUser,
    getRepositories, parse.
  stays_tac.
Qed.

(* ===================================================================== *)
(** ** How a run ends *)
(* ===================================================================== *)

(** X1. The top-level [catch] of [run] lets nothing through: a run never
    throws.  It returns, or it ends the process with status 0 right after
    printing "Operation cancelled", or with status 1 right after printing
    the error; no other status is possible. *)
Theorem run_returns_or_exits_0_or_1 w b names h :
  match fst (run w b names h) with
  | Val _ => True
  | Throw _ => False
  | Exit c =>
      (c = 0%Z /\ exists evs, snd (run w b names h) = evs ++ [cancelled_line w]) \/
      (c = 1%Z /\ exists evs err, snd (run w b names h) = evs ++ [error_line w err])
  end.
Proof.
  rewrite run_unfold.
  pose proof (stays_run_body w b names h) as S.
  destruct (run_body w b names h) as [[[]|err|c] e1]; simpl in S;
    [exact I | | contradiction].
  destruct (message err =? "Prompt was cancelled"); simpl; eauto.
Qed.

(* ===================================================================== *)
(** ** The steps before the tasks, one at a time *)
(* ===================================================================== *)

Lemma owner_configured w h :
  GITHUB_ORG w <> "" -> validateAndGetOwner w h = (Val (GITHUB_ORG w), []).
Proof.
  intros H. unfold validateAndGetOwner. now rewrite (truthy_true _ H).
Qed.

Lemma owner_unset w : GITHUB_ORG w = "" -> Js.truthy (GITHUB_ORG w) = false.
Proof. intros ->. reflexivity. Qed.

Lemma owner_from_login w h out :
  GITHUB_ORG w = "" -> sh w h login_command = Succeeds out ->
  validateAndGetOwner w h = (Val (Js.trim out), [Exec login_command]).
Proof.
  intros H0 H1. unfold validateAndGetOwner, getCurrentUser.
  rewrite (owner_unset w H0).
  unfold try_catch, bind, exec, ret. fold login_command. rewrite H1. reflexivity.
Qed.

Lemma owner_lookup_fails w h err :
  GITHUB_ORG w = "" -> sh w h login_command = Fails err ->
  validateAndGetOwner w h = (Throw login_failure, Exec login_command :: owner_guidance w).
Proof.
  intros H0 H1. unfold validateAndGetOwner, getCurrentUser.
  rewrite (owner_unset w H0).
  unfold try_catch, bind, exec, ret, throw, console_error, emit.
  fold login_command. rewrite H1. reflexivity.
Qed.

Lemma getRepositories_command_fails w owner h err :
  sh w h (list_command owner) = Fails err ->
  getRepositories w owner h =
    (Throw (command_failed (list_command owner) err),
     [Exec (list_command owner);
      fetch_failure_line w (command_failed (list_command owner) err)]).
Proof.
  intros H. unfold getRepositories, try_catch, bind, exec, throw, console_error, emit.
  rewrite H. reflexivity.
Qed.

Lemma getRepositories_parse_fails w owner h out e :
  sh w h (list_command owner) = Succeeds out ->
  JSON_parse w out = inl e ->
  getRepositories w owner h =
    (Throw e, [Exec (list_command owner); fetch_failure_line w e]).
Proof.
  intros H1 H2.
  unfold getRepositories, parse, try_catch, bind, exec, throw, console_error, emit.
  rewrite H1, H2. reflexivity.
Qed.

Lemma chosen_steps w names h :
  chosen w names h =
    match validateAndGetOwner w h with
    | (Val owner, eo) =>
        let h1 := (h ++ eo) ++ [fetching_line w owner] in
        match getRepositories w owner h1 with
        | (Val allRepos, e2) =>
            match select w allRepos names (h1 ++ e2) with
            | (Val sel, e3) =>
                (Val (owner, allRepos, sel), eo ++ fetching_line w owner :: e2 ++ e3)
            | (Throw e, e3) => (Throw e, eo ++ fetching_line w owner :: e2 ++ e3)
            | (Exit c, e3) => (Exit c, eo ++ fetching_line w owner :: e2 ++ e3)
            end
        | (Throw e, e2) => (Throw e, eo ++ fetching_line w owner :: e2)
        | (Exit c, e2) => (Exit c, eo ++ fetching_line w owner :: e2)
        end
    | (Throw e, eo) => (Throw e, eo)
    | (Exit c, eo) => (Exit c, eo)
    end.
Proof.
  unfold chosen. unfold bind, console_log, emit, ret.
  destruct (validateAndGetOwner w h) as [[owner|e|c] eo]; trivial.
  fold (fetching_line w owner). cbv zeta.
  destruct (getRepositories w owner _) as [[allRepos|e|c] e2]; trivial.
  destruct (select w allRepos names _) as [[sel|e|c] e3]; trivial.
  now rewrite app_nil_r.
Qed.

(** What [run] makes of an error thrown before the tasks. *)
Lemma run_chosen_throws w b names h e e1 :
  chosen w names h = (Throw e, e1) ->
  run w b names h =
    if message e =? "Prompt was cancelled"
    then (Exit 0, e1 ++ [cancelled_line w])
    else (Exit 1, e1 ++ [error_line w e]).
Proof.
  intros H. rewrite run_unfold, run_body_chosen, H. reflexivity.
Qed.

Lemma run_extends_chosen w b names h :
  exists rest, snd (run w b names h) = snd (chosen w names h) ++ rest.
Proof.
  rewrite run_unfold, run_body_chosen.
  destruct (chosen w names h) as [[[[owner allRepos] sel]|e|c] e1]; cbn [snd].
  - destruct (process_selected w owner b sel (h ++ e1)) as [[[]|err|c] e2].
    + now exists e2.
    + destruct (message err =? _); cbn [snd]; rewrite <- app_assoc; eauto.
    + now exists e2.
  - destruct (message e =? _); cbn [snd]; eauto.
  - exists []. now rewrite app_nil_r.
Qed.

Lemma getRepositories_first_event w owner h :
  exists rest, snd (getRepositories w owner h) = Exec (list_command owner) :: rest.
Proof.
  unfold getRepositories, parse, try_catch, bind, exec, ret, throw, console_error, emit.
  destruct (sh w h (list_command owner)); [destruct (JSON_parse w _)|];
    cbn [snd app]; eauto.
Qed.

Lemma chosen_begins w names h owner eo :
  validateAndGetOwner w h = (Val owner, eo) ->
  exists rest,
    snd (chosen w names h) =
      eo ++ fetching_line w owner :: Exec (list_command owner) :: rest.
Proof.
  intros H. rewrite chosen_steps, H. cbv zeta.
  destruct (getRepositories_first_event w owner ((h ++ eo) ++ [fetching_line w owner]))
    as [rest E].
  destruct (getRepositories w owner _) as [[allRepos|e|c] e2]; cbn [snd] in E; subst e2.
  - destruct (select w allRepos names _) as [[sel|e|c] e3]; cbn [snd app]; eauto.
  - cbn [snd]. eauto.
  - cbn [snd]. eauto.
Qed.

(* ===================================================================== *)
(** ** The Owner Resolver *)
(* ===================================================================== *)

Lemma branch_command_not_login owner b repo ev :
  branch_command owner b repo ev -> ev <> Exec login_command.
Proof.
  intros [cmd [-> [->|[[br ->]|[sha ->]]]]] E; injection E as E;
    unfold view_command, sha_command, ref_command, login_command in E;
    simpl in E; congruence.
Qed.

(** X2. When an organization is configured, the owner is that
    organization and nothing is run to find it: the run starts by
    announcing the listing for the organization and by listing its
    repositories, and the command that asks who is logged in is never
    run. *)
Theorem configured_owner_skips_login w b names h :
  GITHUB_ORG w <> "" ->
  validateAndGetOwner w h = (Val (GITHUB_ORG w), []) /\
  (exists rest,
      snd (run w b names h) =
        fetching_line w (GITHUB_ORG w) :: Exec (list_command (GITHUB_ORG w)) :: rest) /\
  ~ In (Exec login_command) (snd (run w b names h)).
Proof.
  intros H. split; [now apply owner_configured|]. split.
  - destruct (run_extends_chosen w b names h) as [rest ->].
    destruct (chosen_begins w names h _ _ (owner_configured w h H)) as [rest' ->].
    cbn [app]. eauto.
  - intros Hin.
    assert (E : emits (fun ev => ev <> Exec login_command) (run w b names)).
    { apply run_emits_all; try discriminate.
      - intros H0. now elim H.
      - intros owner repo. apply branch_command_not_login. }
    specialize (E h). rewrite Forall_forall in E. now apply (E _ Hin).
Qed.

Lemma configured_owner_skips_login_witness :
  ~ In (Exec login_command)
       (snd (run Situations.configured
                 "x" ["foo"] [])).
Proof.
  apply (configured_owner_skips_login
           Situations.configured
           "x" ["foo"] []).
  discriminate.
Defined.

(** X3. Without a configured organization the owner is the login that
    [gh] prints, trimmed, and the repositories are listed for it. *)
Theorem owner_is_the_trimmed_login w b names h out :
  GITHUB_ORG w = "" ->
  sh w h login_command = Succeeds out ->
  validateAndGetOwner w h = (Val (Js.trim out), [Exec login_command]) /\
  exists rest,
    snd (run w b names h) =
      Exec login_command :: fetching_line w (Js.trim out)
        :: Exec (list_command (Js.trim out)) :: rest.
Proof.
  intros H0 H1. pose proof (owner_from_login w h out H0 H1) as Ho.
  split; [exact Ho|].
  destruct (run_extends_chosen w b names h) as [rest ->].
  destruct (chosen_begins w names h _ _ Ho) as [rest' ->].
  cbn [app]. eauto.
Qed.

Lemma owner_is_the_trimmed_login_witness :
  validateAndGetOwner Acme.world [] = (Val "acme", [Exec login_command]).
Proof.
  exact (proj1 (owner_is_the_trimmed_login Acme.world "x" [] []
                  ("acme" ++ Js.nl) eq_refl eq_refl)).
Defined.

(** X4. Without a configured organization, when the command that asks who
    is logged in fails, whatever its error output, the run prints the four
    lines of guidance and the error "Failed to get GitHub user. Please run
    'gh auth login'", and exits with status 1; nothing else is run: no
    listing, no prompt, no branch. *)
Theorem owner_lookup_failure_is_fatal w b names h err :
  GITHUB_ORG w = "" ->
  sh w h login_command = Fails err ->
  run w b names h =
    (Exit 1, Exec login_command :: owner_guidance w ++ [error_line w login_failure]).
Proof.
  intros H0 H1.
  assert (C : chosen w names h = (Throw login_failure, Exec login_command :: owner_guidance w))
    by (rewrite chosen_steps, (owner_lookup_fails w h err H0 H1); reflexivity).
  rewrite (run_chosen_throws w b names h _ _ C). reflexivity.
Qed.

Lemma owner_lookup_failure_is_fatal_witness :
  exit_code (fst (run Situations.logged_out
                      "x" [] [])) = 1%Z.
Proof.
  rewrite (owner_lookup_failure_is_fatal
             Situations.logged_out
             "x" [] [] "gh: not logged in" eq_refl eq_refl).
  reflexivity.
Defined.

(* ===================================================================== *)
(** ** Failures of the listing *)
(* ===================================================================== *)

(** X5. When the command that lists the repositories fails, the run
    prints the failure twice, once as "Failed to fetch repositories:" and
    once as "Error:", and exits with status 1 without a prompt and
    without creating any branch. *)
Theorem listing_failure_is_fatal w b names h owner eo err :
  validateAndGetOwner w h = (Val owner, eo) ->
  sh w ((h ++ eo) ++ [fetching_line w owner]) (list_command owner) = Fails err ->
  let failure := command_failed (list_command owner) err in
  run w b names h =
    (Exit 1,
     (eo ++ [fetching_line w owner; Exec (list_command owner);
             fetch_failure_line w failure]) ++ [error_line w failure]).
Proof.
  intros Ho Hl failure.
  assert (C : chosen w names h =
              (Throw failure,
               eo ++ [fetching_line w owner; Exec (list_command owner);
                      fetch_failure_line w failure])).
  { rewrite chosen_steps, Ho. cbv zeta.
    rewrite (getRepositories_command_fails w owner _ err Hl). reflexivity. }
  rewrite (run_chosen_throws w b names h _ _ C). reflexivity.
Qed.

Lemma listing_failure_is_fatal_witness :
  exit_code
    (fst (run Situations.nobody
              "x" ["foo"] [])) = 1%Z.
Proof.
  rewrite (listing_failure_is_fatal
             Situations.nobody
             "x" ["foo"] [] "nobody" [] ("gh: Not Found (HTTP 404)" ++ Js.nl)
             eq_refl eq_refl).
  reflexivity.
Defined.

(** X6. When the listing is printed but does not parse, the error of the
    parser is printed twice in the same way and the run ends before any
    prompt or branch: with status 1, unless the message of the error is
    "Prompt was cancelled", which the run takes for a cancelled prompt and
    answers with "Operation cancelled" and status 0. *)
Theorem unparsable_listing_ends_the_run w b names h owner eo out e :
  validateAndGetOwner w h = (Val owner, eo) ->
  sh w ((h ++ eo) ++ [fetching_line w owner]) (list_command owner) = Succeeds out ->
  JSON_parse w out = inl e ->
  let before := eo ++ [fetching_line w owner; Exec (list_command owner);
                       fetch_failure_line w e] in
  run w b names h =
    if message e =? "Prompt was cancelled"
    then (Exit 0, before ++ [cancelled_line w])
    else (Exit 1, before ++ [error_line w e]).
Proof.
  intros Ho Hl Hp before.
  assert (C : chosen w names h = (Throw e, before)).
  { rewrite chosen_steps, Ho. cbv zeta.
    rewrite (getRepositories_parse_fails w owner _ out e Hl Hp). reflexivity. }
  exact (run_chosen_throws w b names h _ _ C).
Qed.

Lemma unparsable_listing_ends_the_run_witness :
  exit_code
    (fst (run Situations.garbled
              "x" ["foo"] [])) = 1%Z.
Proof.
  rewrite (unparsable_listing_ends_the_run
             Situations.garbled
             "x" ["foo"] [] "acme" []
             (Acme.listing [Acme.foo_raw; Acme.new_raw; Acme.bar_raw])
             (Error "Unexpected end of JSON input") eq_refl eq_refl eq_refl).
  reflexivity.
Defined.

(* ===================================================================== *)
(** ** The prompt *)
(* ===================================================================== *)

Lemma select_prompts w allRepos h :
  select w allRepos [] h =
    match checkbox w (map choice_label allRepos) with
    | Answered checked =>
        (Val (ticked checked allRepos), [Prompt (map choice_label allRepos)])
    | Rejected e => (Throw e, [Prompt (map choice_label allRepos)])
    end.
Proof. reflexivity. Qed.

(** X7. With no name on the command line, once the owner is known and
    the listing is there, the run asks the prompt with one choice for each
    listed repository, in the order of the listing, labelled with the full
    name followed by the default branch in parentheses; it does so
    whatever the answer is, and that is all it has done so far.  When the
    prompt is rejected, no branch is created: the run prints "Operation
    cancelled" and exits with status 0 if the message of the rejection is
    "Prompt was cancelled", and prints the error and exits with status 1
    otherwise. *)
Theorem rejected_prompt_ends_the_run w b h owner eo allRepos e2 :
  validateAndGetOwner w h = (Val owner, eo) ->
  getRepositories w owner ((h ++ eo) ++ [fetching_line w owner]) = (Val allRepos, e2) ->
  let labels :=
    map (fun repo => (full_name repo ++ " (" ++ defaultBranch repo ++ ")")%string)
        allRepos in
  let before := eo ++ fetching_line w owner :: e2 ++ [Prompt labels] in
  (exists rest, snd (run w b [] h) = before ++ rest) /\
  (forall e,
      checkbox w labels = Rejected e ->
      run w b [] h =
        (if message e =? "Prompt was cancelled"
         then (Exit 0, before ++ [cancelled_line w])
         else (Exit 1, before ++ [error_line w e])) /\
      branch_creation_calls (snd (run w b [] h)) = []).
Proof.
  intros Ho Hg labels before.
  change labels with (map choice_label allRepos) in *.
  split.
  - destruct (run_extends_chosen w b [] h) as [rest ->].
    rewrite chosen_steps, Ho. cbv zeta. rewrite Hg, select_prompts.
    destruct (checkbox w (map choice_label allRepos)); cbn [snd];
      exists rest; unfold before; now rewrite <- !app_assoc.
  - intros e Hc.
    assert (C : chosen w [] h = (Throw e, before)).
    { rewrite chosen_steps, Ho. cbv zeta. rewrite Hg, select_prompts, Hc. reflexivity. }
    pose proof (chosen_calm w [] h) as Calm. rewrite C in Calm. cbn [snd] in Calm.
    rewrite (run_chosen_throws w b [] h _ _ C). split; [reflexivity|].
    apply calm_no_calls.
    destruct (message e =? "Prompt was cancelled"); cbn [snd];
      (apply Forall_app; split; [exact Calm | repeat constructor]).
Qed.

Lemma rejected_prompt_ends_the_run_witness :
  run Situations.cancelling "x" [] [] =
    (Exit 0,
     [Console Log [Str "🔍 Fetching repositories for acme..."];
      Exec "gh repo list acme --limit 1000 --json name,defaultBranchRef,nameWithOwner";
      Prompt ["acme/bar (develop)"; "acme/foo (main)"; "acme/new (main)"];
      cancelled_line Situations.cancelling]).
Proof.
  exact (proj1 (proj2 (rejected_prompt_ends_the_run Situations.cancelling
             "x" [] "acme" [] [Acme.bar; Acme.foo; Acme.new]
             [Exec (list_command "acme")] eq_refl eq_refl)
           (Error "Prompt was cancelled") eq_refl)).
Defined.

(** X8. Names on the command line and the prompt exclude each other: a
    run with names never prompts, and a run without names never prints the
    warning about repositories not found. *)
Theorem names_or_prompt w b names h :
  (names <> [] -> Forall (fun ev => is_prompt ev = false) (snd (run w b names h))) /\
  (names = [] -> Forall (fun ev => is_warning ev = false) (snd (run w b names h))).
Proof.
  split; intros H.
  - apply (run_emits_all (fun ev => is_prompt ev = false)); try reflexivity.
    + intros owner repo ev [cmd [-> _]]. reflexivity.
    + intros E. now elim H.
  - apply (run_emits_all (fun ev => is_warning ev = false)); try reflexivity.
    + intros owner repo ev [cmd [-> _]]. reflexivity.
    + intros E. now elim E.
Qed.

Lemma names_or_prompt_witness :
  Forall (fun ev => is_prompt ev = false) (snd (run Acme.world "x" ["foo"] [])) /\
  Forall (fun ev => is_warning ev = false) (snd (run Acme.world "x" [] [])).
Proof.
  split.
  - apply (proj1 (names_or_prompt Acme.world "x" ["foo"] [])). discriminate.
  - apply (proj2 (names_or_prompt Acme.world "x" [] [])). reflexivity.
Defined.

(* ===================================================================== *)
(** ** The wrapper *)
(* ===================================================================== *)

(** X9. The wrapper probes for [gh] first.  When the probe fails it
    prints the two lines about installing it and exits with status 1, and
    nothing else is run.  When the probe succeeds the rest is the run,
    unchanged, after the probe. *)
Theorem main_probes_first w b names h :
  main w b names h =
    match sh w h probe_command with
    | Fails _ => (Exit 1, Exec probe_command :: install_guidance w)
    | Succeeds _ =>
        let (r, evs) := run w b names (h ++ [Exec probe_command]) in
        (r, Exec probe_command :: evs)
    end.
Proof.
  unfold main, checkGitHubCLI, try_catch, bind, exec, ret, console_error, emit,
    process_exit.
  fold probe_command.
  destruct (sh w h probe_command) as [out|err]; cbn.
  - rewrite app_nil_r.
    destruct (run w b names (h ++ [Exec probe_command])) as [r evs]. reflexivity.
  - reflexivity.
Qed.

(* ===================================================================== *)
(** ** More on the Branch Creator and the Task Runner *)
(* ===================================================================== *)

(** What has happened when [createBranch] returns. *)
Lemma createBranch_returns_inv w owner repoName branchName h evs :
  createBranch w owner repoName branchName h = (Val tt, evs) ->
  exists branchStdout shaStdout created,
    let view := view_command owner repoName in
    let sha := sha_command owner repoName (Js.or_else (Js.trim branchStdout) "main") in
    let create := ref_command owner repoName branchName (Js.trim shaStdout) in
    sh w h view = Succeeds branchStdout /\
    sh w (h ++ [Exec view]) sha = Succeeds shaStdout /\
    sh w ((h ++ [Exec view]) ++ [Exec sha]) create = Succeeds created /\
    evs = [Exec view; Exec sha; Exec create].
Proof.
  unfold createBranch, try_catch, bind, exec, ret, throw.
  destruct (sh w h (view_command owner repoName)) as [out1|err1] eqn:E1.
  - destruct (sh w _ (sha_command owner repoName _)) as [out2|err2] eqn:E2.
    + destruct (sh w _ (ref_command owner repoName branchName _)) as [out3|err3] eqn:E3.
      * intros [= <-]. exists out1, out2, out3. cbv zeta. auto.
      * destruct (reference_already_exists _); discriminate.
    + destruct (reference_already_exists _); discriminate.
  - destruct (reference_already_exists _); discriminate.
Qed.

(** X10. [createBranch] returns only after three commands that all
    succeeded, in this order: [gh repo view <owner>/<repo> --json
    defaultBranchRef --jq .defaultBranchRef.name], then the lookup [gh api
    repos/<owner>/<repo>/git/refs/heads/<branch> --jq .object.sha] for the
    branch the first command printed, trimmed, or for [main] when that is
    empty, then [gh api repos/<owner>/<repo>/git/refs -f
    ref=refs/heads/<branchName> -f sha=<sha>] with the commit the second
    command printed, trimmed. *)
Theorem createBranch_returns_after_three_commands w owner repoName branchName h evs :
  createBranch w owner repoName branchName h = (Val tt, evs) ->
  exists branchStdout shaStdout created,
    let view :=
      ("gh repo view " ++ owner ++ "/" ++ repoName ++
       " --json defaultBranchRef --jq .defaultBranchRef.name")%string in
    let sha :=
      ("gh api repos/" ++ owner ++ "/" ++ repoName ++ "/git/refs/heads/" ++
       (if Js.trim branchStdout =? "" then "main" else Js.trim branchStdout) ++
       " --jq .object.sha")%string in
    let create :=
      ("gh api repos/" ++ owner ++ "/" ++ repoName ++
       "/git/refs -f ref=refs/heads/" ++ branchName ++
       " -f sha=" ++ Js.trim shaStdout)%string in
    sh w h view = Succeeds branchStdout /\
    sh w (h ++ [Exec view]) sha = Succeeds shaStdout /\
    sh w ((h ++ [Exec view]) ++ [Exec sha]) create = Succeeds created /\
    evs = [Exec view; Exec sha; Exec create].
Proof.
  intros H.
  destruct (createBranch_returns_inv w owner repoName branchName h evs H)
    as [out1 [out2 [out3 [H1 [H2 [H3 ->]]]]]].
  exists out1, out2, out3.
  assert (E : Js.or_else (Js.trim out1) "main" =
              if Js.trim out1 =? "" then "main" else Js.trim out1).
  { unfold Js.or_else, Js.truthy. now destruct (Js.trim out1 =? ""). }
  rewrite E in *. repeat split; assumption.
Qed.

Lemma createBranch_returns_after_three_commands_witness :
  exists branchStdout shaStdout created,
    sh Acme.world [] "gh repo view acme/foo --json defaultBranchRef --jq .defaultBranchRef.name"
      = Succeeds branchStdout /\
    Js.trim branchStdout = "main" /\
    Js.trim shaStdout = "2222222" /\
    sh Acme.world
       [Exec "gh repo view acme/foo --json defaultBranchRef --jq .defaultBranchRef.name";
        Exec "gh api repos/acme/foo/git/refs/heads/main --jq .object.sha"]
       "gh api repos/acme/foo/git/refs -f ref=refs/heads/x -f sha=2222222"
      = Succeeds created.
Proof.
  destruct (createBranch_returns_after_three_commands Acme.world "acme" "foo" "x" []
              [Exec (view_command "acme" "foo"); Exec (sha_command "acme" "foo" "main");
               Exec (ref_command "acme" "foo" "x" "2222222")] eq_refl)
    as [out1 [out2 [out3 [H1 [H2 [H3 _]]]]]].
  exists out1, out2, out3.
  vm_compute in H1. injection H1 as <-.
  vm_compute in H2. injection H2 as <-.
  repeat split. exact H3.
Defined.

(** X11. Whichever of its three commands fails, [createBranch] throws
    "Branch already exists" when the error output of that command contains
    "Reference already exists", and the failure of that command otherwise:
    it never rethrows a failure whose error output contains "Reference
    already exists", and the command that failed is the last one it ran. *)
Theorem createBranch_throws_for_the_last_command w owner repoName branchName h e evs :
  createBranch w owner repoName branchName h = (Throw e, evs) ->
  exists before cmd err,
    evs = before ++ [Exec cmd] /\
    sh w (h ++ before) cmd = Fails err /\
    e = (if Js.includes "Reference already exists" err
         then Error "Branch already exists"
         else command_failed cmd err).
Proof.
  unfold createBranch, try_catch, bind, exec, ret, throw.
  destruct (sh w h (view_command owner repoName)) as [out1|err1] eqn:E1.
  - destruct (sh w _ (sha_command owner repoName _)) as [out2|err2] eqn:E2.
    + destruct (sh w _ (ref_command owner repoName branchName _)) as [out3|err3] eqn:E3.
      * discriminate.
      * rewrite reference_already_exists_command_failed.
        intros H. exists [Exec (view_command owner repoName);
                          Exec (sha_command owner repoName
                                  (Js.or_else (Js.trim out1) "main"))].
        exists (ref_command owner repoName branchName (Js.trim out2)), err3.
        repeat split.
        -- destruct (Js.includes _ err3); injection H as <- <-; reflexivity.
        -- rewrite <- E3. f_equal. now rewrite <- app_assoc.
        -- destruct (Js.includes _ err3); injection H as <- <-; reflexivity.
    + rewrite reference_already_exists_command_failed.
      intros H. exists [Exec (view_command owner repoName)].
      exists (sha_command owner repoName (Js.or_else (Js.trim out1) "main")), err2.
      repeat split.
      * destruct (Js.includes _ err2); injection H as <- <-; reflexivity.
      * exact E2.
      * destruct (Js.includes _ err2); injection H as <- <-; reflexivity.
  - rewrite reference_already_exists_command_failed.
    intros H. exists [], (view_command owner repoName), err1.
    repeat split.
    + destruct (Js.includes _ err1); injection H as <- <-; reflexivity.
    + now rewrite app_nil_r.
    + destruct (Js.includes _ err1); injection H as <- <-; reflexivity.
Qed.

Lemma createBranch_throws_for_the_last_command_witness :
  exists before cmd err,
    [Exec (view_command "acme" "new"); Exec (sha_command "acme" "new" "main")]
      = before ++ [Exec cmd] /\
    sh Acme.world ([] ++ before) cmd = Fails err /\
    command_failed (sha_command "acme" "new" "main")
      ("gh: Not Found (HTTP 404)" ++ Js.nl) =
      (if Js.includes "Reference already exists" err
       then Error "Branch already exists"
       else command_failed cmd err).
Proof.
  exact (createBranch_throws_for_the_last_command Acme.world "acme" "new" "x" []
           (command_failed (sha_command "acme" "new" "main")
              ("gh: Not Found (HTTP 404)" ++ Js.nl))
           [Exec (view_command "acme" "new"); Exec (sha_command "acme" "new" "main")]
           eq_refl).
Defined.

(** The error of a task, when the error of [createBranch] is known. *)
Lemma task_rethrows w owner b repo h :
  task w owner b repo h =
    match createBranch w owner (name repo) b h with
    | (Throw e, evs) =>
        (Throw (if Js.includes "already exists" (message e)
                then already_exists w else e), evs)
    | other => other
    end.
Proof.
  unfold task, try_catch.
  destruct (createBranch w owner (name repo) b h) as [[[]|e|c] evs]; trivial.
  unfold throw. destruct (Js.includes "already exists" (message e));
    now rewrite app_nil_r.
Qed.

(** X12. A task never lets through an error whose message contains
    "already exists".  What it throws is either the error "Branch already
    exists" of the task, or the failure of a command whose message, with
    the command and its error output, does not contain "already exists";
    the dedicated error of [createBranch] always becomes the former. *)
Theorem task_reports_already_exists w owner b repo h e evs :
  task w owner b repo h = (Throw e, evs) ->
  (e = already_exists w \/
   (exists cmd err, e = command_failed cmd err) /\
   Js.includes "already exists" (message e) = false) /\
  (fst (createBranch w owner (name repo) b h) = Throw (Error "Branch already exists") ->
   e = already_exists w).
Proof.
  rewrite task_rethrows.
  pose proof (createBranch_ends w owner (name repo) b h) as He.
  destruct (createBranch w owner (name repo) b h) as [[[]|e0|c] evs0];
    try discriminate.
  cbn [fst] in He. intros [= <- <-]. split.
  - destruct (Js.includes "already exists" (message e0)) eqn:E; [now left|].
    right. split; trivial.
    destruct He as [->|He]; [discriminate E | exact He].
  - cbn [fst]. intros [= ->]. reflexivity.
Qed.

Lemma task_reports_already_exists_witness :
  Error "Branch already exists" = already_exists Acme.world.
Proof.
  symmetry.
  apply (proj2 (task_reports_already_exists Acme.world "acme" "x" Acme.bar []
                  (Error "Branch already exists")
                  [Exec (view_command "acme" "bar");
                   Exec (sha_command "acme" "bar" "develop");
                   Exec (ref_command "acme" "bar" "x" "1111111")] eq_refl)).
  reflexivity.
Defined.

Lemma task_no_records w owner b repo h : task_records (snd (task w owner b repo h)) = [].
Proof.
  pose proof (task_emits w owner b repo h) as H.
  induction H as [|ev evs [cmd [-> _]] _ IH]; trivial.
Qed.

Lemma task_records_app (a c : list Event) :
  task_records (a ++ c) = task_records a ++ task_records c.
Proof. apply filter_app. Qed.

(** X13. The records of a run of the tasks are one for each repository
    that was attempted, in the order of the selection.  When the run
    returns every selected repository is recorded as completed; when it
    throws, the repositories before some repository of the selection are
    recorded as completed, that one as failed with the message of the
    error thrown, and there is no record after it. *)
Theorem task_records_follow_the_selection w owner b sel h :
  match Listr_run (tasks_of w owner b sel) h with
  | (Val _, evs) => task_records evs = map (completed w) sel
  | (Throw err, evs) =>
      exists before repo after,
        sel = before ++ repo :: after /\
        task_records evs =
          map (completed w) before ++
          [TaskState (task_title w repo) (Failed (message err))]
  | (Exit _, _) => False
  end.
Proof.
  revert h. induction sel as [|x sel IH]; intros h.
  - rewrite Listr_run_nil. reflexivity.
  - rewrite tasks_of_cons, Listr_run_cons.
    pose proof (task_no_records w owner b x h) as Hn.
    pose proof (task_ends w owner b x h) as He.
    destruct (task w owner b x h) as [[[]|ex|c] e0]; cbn [fst snd] in Hn, He.
    + specialize (IH ((h ++ e0) ++ [TaskState (task_title w x) Completed])).
      destruct (Listr_run (tasks_of w owner b sel) _) as [[[]|err|c] e'].
      * rewrite task_records_app, Hn. cbn. unfold task_records in IH.
        now rewrite IH.
      * destruct IH as [before [repo [after [-> IH]]]].
        exists (x :: before), repo, after. split; trivial.
        rewrite task_records_app, Hn. cbn. unfold task_records in IH.
        now rewrite IH.
      * exact IH.
    + exists [], x, sel. split; trivial.
      rewrite task_records_app, Hn. reflexivity.
    + exact He.
Qed.

(* ===================================================================== *)
(** ** More on the Selector and the Lister *)
(* ===================================================================== *)

(** X14. Every name given on the command line is accounted for in
    exactly one way: either a selected repository has that name, or the
    name is among those reported as not found, never both. *)
Theorem names_are_selected_or_reported (L : list string) (R : list Repository)
    (l : string) :
  In l L ->
  ((exists r, In r (named L R) /\ name r = l) \/ In l (notFound L R)) /\
  ~ ((exists r, In r (named L R) /\ name r = l) /\ In l (notFound L R)).
Proof.
  intros Hl. split.
  - destruct (existsb (fun repo => name repo =? l) R) eqn:E.
    + left. apply some_name_spec in E. destruct E as [r [Hr E]].
      exists r. split; trivial. apply named_spec. split; trivial. now rewrite E.
    + right. unfold notFound. apply filter_In. split; trivial. now rewrite E.
  - intros [[r [Hr E]] Hn]. apply named_spec in Hr. apply notFound_spec in Hn.
    destruct Hr as [Hr _]. destruct Hn as [_ Hn]. now apply (Hn r Hr).
Qed.

Lemma names_are_selected_or_reported_witness :
  (exists r, In r (named ["foo"; "baz"] [Acme.bar; Acme.foo]) /\ name r = "baz") \/
  In "baz" (notFound ["foo"; "baz"] [Acme.bar; Acme.foo]).
Proof.
  apply (names_are_selected_or_reported ["foo"; "baz"] [Acme.bar; Acme.foo] "baz").
  simpl. auto.
Defined.

Lemma default_branch_of_not_empty (raw : RawRepo) : default_branch_of raw <> "".
Proof.
  unfold default_branch_of, Js.or_else.
  destruct (defaultBranchRef raw) as [[branch|]|]; try discriminate.
  destruct (Js.truthy branch) eqn:E; [|discriminate].
  intros ->. discriminate E.
Qed.

(** X15. When the listing succeeds, the Lister returns as many
    repositories as the listing has entries, and each of them has the name
    and the full name of an entry and a default branch that is not empty:
    the one of the entry, or [main]. *)
Theorem getRepositories_keeps_every_entry (w : World) (owner : string)
    (h : list Event) (stdout : string) (raws : list RawRepo) :
  sh w h (list_command owner) = Succeeds stdout ->
  JSON_parse w stdout = inr raws ->
  exists repos,
    getRepositories w owner h = (Val repos, [Exec (list_command owner)]) /\
    List.length repos = List.length raws /\
    forall repo, In repo repos ->
      defaultBranch repo <> "" /\
      exists raw, In raw raws /\
        name repo = raw_name raw /\
        full_name repo = nameWithOwner raw /\
        (defaultBranchRef raw = Some (Some (defaultBranch repo)) \/
         defaultBranch repo = "main").
Proof.
  intros H1 H2. eexists. split; [exact (getRepositories_listing w owner h H1 H2)|].
  split.
  - rewrite (Permutation_length (sort_perm _ _)). apply length_map.
  - intros repo Hin. apply sort_In, in_map_iff in Hin.
    destruct Hin as [raw [<- Hraw]].
    split; [apply default_branch_of_not_empty|].
    exists raw. repeat split; trivial.
    unfold normalize, default_branch_of, Js.or_else. cbn [defaultBranch].
    destruct (defaultBranchRef raw) as [[branch|]|]; auto.
    destruct (Js.truthy branch); auto.
Qed.

Lemma getRepositories_keeps_every_entry_witness :
  exists repos,
    getRepositories Acme.world "acme" [] = (Val repos, [Exec (list_command "acme")]) /\
    List.length repos = 3%nat.
Proof.
  destruct (getRepositories_keeps_every_entry Acme.world "acme" []
              (Acme.listing [Acme.foo_raw; Acme.new_raw; Acme.bar_raw])
              [Acme.foo_raw; Acme.new_raw; Acme.bar_raw] eq_refl eq_refl)
    as [repos [E [L _]]].
  exists repos. split; [exact E | exact L].
Defined.

(* ===================================================================== *)
(** ** The variant that talks to the REST interface *)
(* ===================================================================== *)

(** X16. The validation of the environment succeeds, and prints nothing,
    exactly when an owner (the organization, or else the user) and a token
    are set.  Without an owner it prints the two lines about the owner and
    does not look at the token; with an owner and no token it prints the
    two lines about the token. *)
Theorem validateEnv_needs_owner_and_token (w : World) (env : Startup.Environment)
    (h : list Event) :
  fst (Startup.validateEnv w env h) =
    Val ((negb (Startup.ORG env =? "") || negb (Startup.OWNER_NAME env =? ""))
         && negb (Startup.TOKEN env =? "")) /\
  (fst (Startup.validateEnv w env h) = Val true ->
   snd (Startup.validateEnv w env h) = []) /\
  (Startup.ORG env = "" -> Startup.OWNER_NAME env = "" ->
   snd (Startup.validateEnv w env h) =
     [Console Err [Str (chalk w red "❌ Neither BRANCH_SYNC_GITHUB_ORG nor BRANCH_SYNC_GITHUB_OWNER found in environment variables")];
      Console Err [Str (chalk w yellow "Please set either BRANCH_SYNC_GITHUB_ORG or BRANCH_SYNC_GITHUB_OWNER in your .env file or as environment variable")]]) /\
  (Startup.OWNER env <> "" -> Startup.TOKEN env = "" ->
   snd (Startup.validateEnv w env h) =
     [Console Err [Str (chalk w red "❌ BRANCH_SYNC_GITHUB_TOKEN not found in environment variables")];
      Console Err [Str (chalk w yellow "Please set BRANCH_SYNC_GITHUB_TOKEN in your .env file or as environment variable")]]).
Proof.
  destruct env as [[|c1 org] [|c2 owner] [|c3 token] file];
    unfold Startup.validateEnv, Startup.OWNER, Js.or_else, Js.truthy;
    cbn; repeat split; intros; try reflexivity; try discriminate; congruence.
Qed.

Lemma validateEnv_needs_owner_and_token_witness :
  fst (Startup.validateEnv Acme.world Situations.token_only []) = Val false /\
  snd (Startup.validateEnv Acme.world Situations.token_only []) =
    [Console Err [Str "❌ Neither BRANCH_SYNC_GITHUB_ORG nor BRANCH_SYNC_GITHUB_OWNER found in environment variables"];
     Console Err [Str "Please set either BRANCH_SYNC_GITHUB_ORG or BRANCH_SYNC_GITHUB_OWNER in your .env file or as environment variable"]].
Proof.
  destruct (validateEnv_needs_owner_and_token Acme.world Situations.token_only [])
    as [V [_ [L _]]].
  split; [exact V | exact (L eq_refl eq_refl)].
Defined.

(** X17. At its start that variant goes on only with a valid
    environment.  Otherwise it exits with status 1 after the lines of the
    validation, followed by the four lines about the [.env] file exactly
    when there is no such file. *)
Theorem startup_exits_without_configuration (w : World) (env : Startup.Environment)
    (h : list Event) :
  Startup.check w env h =
    match Startup.validateEnv w env h with
    | (Val true, _) => (Val tt, [])
    | (_, lines) =>
        (Exit 1,
         lines ++ (if Startup.env_file_exists env then [] else Startup.env_file_hint w))
    end.
Proof.
  destruct env as [[|c1 org] [|c2 owner] [|c3 token] [|]];
    unfold Startup.check, Startup.validateEnv, Startup.OWNER, Js.or_else, Js.truthy;
    reflexivity.
Qed.

(** X18. In that variant [createBranch] returns only when its three
    requests were answered: the repository, the ref of its default branch
    as the repository names it, and the creation of the new ref at the
    commit of that ref.  Otherwise it throws for the first request that
    was rejected: "Branch already exists" when the status of the rejection
    is 422, whichever request it was, and the rejection itself when it is
    not. *)
Theorem rest_createBranch_outcomes (client : Octokit.Rest)
    (repoName branchName : string) :
  let owner := Octokit.OWNER client in
  match Octokit.createBranch client repoName branchName with
  | inr _ =>
      exists branch sha,
        Octokit.repos_get client owner repoName = inr branch /\
        Octokit.git_getRef client owner repoName ("heads/" ++ branch) = inr sha /\
        Octokit.git_createRef client owner repoName ("refs/heads/" ++ branchName) sha
          = inr tt
  | inl e =>
      exists cause,
        (Octokit.repos_get client owner repoName = inl cause \/
         (exists branch,
             Octokit.repos_get client owner repoName = inr branch /\
             Octokit.git_getRef client owner repoName ("heads/" ++ branch) = inl cause) \/
         (exists branch sha,
             Octokit.repos_get client owner repoName = inr branch /\
             Octokit.git_getRef client owner repoName ("heads/" ++ branch) = inr sha /\
             Octokit.git_createRef client owner repoName
               ("refs/heads/" ++ branchName) sha = inl cause)) /\
        e = (if Octokit.unprocessable cause
             then Error "Branch already exists" else cause)
  end.
Proof.
  intros owner. unfold Octokit.createBranch, Octokit.rethrow. fold owner.
  destruct (Octokit.repos_get client owner repoName) as [e1|branch] eqn:E1.
  - destruct (Octokit.unprocessable e1) eqn:U; exists e1; rewrite U; auto.
  - destruct (Octokit.git_getRef client owner repoName _) as [e2|sha] eqn:E2.
    + destruct (Octokit.unprocessable e2) eqn:U; exists e2; rewrite U;
        (split; [right; left; eauto | reflexivity]).
    + destruct (Octokit.git_createRef client owner repoName _ sha) as [e3|[]] eqn:E3.
      * destruct (Octokit.unprocessable e3) eqn:U; exists e3; rewrite U;
          (split; [right; right; eauto | reflexivity]).
      * eauto.
Qed.
